(** * Easegress AI gateway: the vector-store abstraction and its Redis engine

    A shallow embedding of two Go packages of the gateway,

    - [vectordb]    (factory [New] and [ValidateSpec] over the store type tag),
    - [redisvector] (the Redis client wrapper: index management, hash
      upserts, batched upserts, similarity search and result conversion,
      binary encoding of embedding vectors),

    together with the properties their design document states about them.

    Conventions of the embedding.
    - A Go call either returns or panics: [Outcome].
    - A Go [string] is a byte sequence: Rocq's [string] (8-bit characters).
    - A floating-point number is represented by its IEEE-754 bit pattern, an
      integer; [math.Float32bits] and [math.Float64bits] read that pattern.
    - A Go [map] is a reference: documents live in a heap of maps, and a nil
      map is a reference the heap does not hold (it can be read, not written).
    - The order in which [range] visits a map, and the identifiers drawn from
      [uuid.New], are picked by the run-time system: every draw reads the
      next entry of a sequence the development quantifies over.
    - Code outside the two files at hand (the Redis server behind the client,
      number formatting and parsing, sibling packages) is a parameter. *)

From Stdlib Require Import ZArith Lia List String Ascii.
From stdpp Require Import base option list gmap strings fin_maps pretty.

Local Open Scope string_scope.
Local Open Scope list_scope.
Local Open Scope nat_scope.

(** ** Go runtime *)

(** The result of a call: a value, or a run-time panic with its message. *)
Inductive Outcome (A : Type) : Type :=
  | Returns (a : A)
  | Panics (msg : string).
Arguments Returns {A} a.
Arguments Panics {A} msg.

Definition obind {A B} (m : Outcome A) (k : A -> Outcome B) : Outcome B :=
  match m with
  | Returns a => k a
  | Panics msg => Panics msg
  end.

(** A non-nil [error] value. [errors.New] and [fmt.Errorf] (without verbs)
    build an [ErrorString]; [errors.Join] builds a [JoinError] wrapping the
    errors it was given; [strconv] reports a [NumError] wrapping [ErrSyntax]
    or [ErrRange]. The Go type [error] itself is [option error], with [None]
    for [nil]. *)
#[warnings="-register-all"]
Inductive error : Type :=
  | ErrorString (msg : string)
  | JoinError (errs : list error)
  | NumError (func num : string) (err : error).

Definition ErrSyntax : error := ErrorString "invalid syntax".
Definition ErrRange : error := ErrorString "value out of range".

(** [errors.Join]: nil values are discarded; the result is nil when nothing
    is left, else one error wrapping the rest in order. *)
Definition errors_Join (errs : list (option error)) : option error :=
  match omap id errs with
  | [] => None
  | es => Some (JoinError es)
  end.

(** *** Bytes and strings *)

(** The conversion [byte(v)] of an unsigned integer: its low eight bits. *)
Definition byte_of (v : Z) : Z := (v `mod` 256)%Z.

(** [unsafe.String(unsafe.SliceData(b), len(b))]: the bytes of [b] as a string. *)
Definition string_of_bytes (b : list Z) : string :=
  foldr (fun x s => String (ascii_of_N (Z.to_N x)) s) EmptyString b.

(** [s[n]], when [n] is in range. *)
Definition string_byte (s : string) (n : nat) : option Z :=
  (fun a => Z.of_N (N_of_ascii a)) <$> String.get n s.

(** *** Floating-point numbers by their bit patterns *)

Definition float32 := Z.
Definition float64 := Z.

Definition Float32bits (f : float32) : Z := (f `mod` 2 ^ 32)%Z.
Definition Float64bits (f : float64) : Z := (f `mod` 2 ^ 64)%Z.

(** Comparison of two float64 values. A NaN (exponent all ones, fraction not
    zero) compares false with everything; otherwise the sign-and-magnitude
    pattern orders the values, both zeros being equal. *)
Definition f64_isNaN (f : float64) : bool :=
  (0x7FF0000000000000 <? Float64bits f `mod` 2 ^ 63)%Z.

Definition f64_key (f : float64) : Z :=
  let b := Float64bits f in
  (if Z.testbit b 63 then - (b `mod` 2 ^ 63) else b)%Z.

Definition f64_le (a b : float64) : bool :=
  negb (f64_isNaN a) && negb (f64_isNaN b) && (f64_key a <=? f64_key b)%Z.

Definition f64_lt (a b : float64) : bool :=
  negb (f64_isNaN a) && negb (f64_isNaN b) && (f64_key a <? f64_key b)%Z.

(** [a > b] is [b < a]. *)
Definition f64_gt (a b : float64) : bool := f64_lt b a.

(** The constants [0] and [1.0] as float64. *)
Definition f64_zero : float64 := 0%Z.
Definition f64_one : float64 := 0x3FF0000000000000%Z.

(** *** [encoding/binary], little endian

    [PutUint32(b[off:off+4], v)] on the buffer [b]: the slice expression
    panics unless [off + 4 <= len(b)], then the four bytes are stored lowest
    first. The slice shares the buffer, so the writes land in [b]. *)
Definition PutUint32 (b : list Z) (off : nat) (v : Z) : Outcome (list Z) :=
  if decide (off + 4 ≤ length b) then
    Returns (<[off + 3 := byte_of (v ≫ 24)]>
            (<[off + 2 := byte_of (v ≫ 16)]>
            (<[off + 1 := byte_of (v ≫ 8)]>
            (<[off := byte_of v]> b))))
  else Panics "slice bounds out of range".

Definition PutUint64 (b : list Z) (off : nat) (v : Z) : Outcome (list Z) :=
  if decide (off + 8 ≤ length b) then
    Returns (<[off + 7 := byte_of (v ≫ 56)]>
            (<[off + 6 := byte_of (v ≫ 48)]>
            (<[off + 5 := byte_of (v ≫ 40)]>
            (<[off + 4 := byte_of (v ≫ 32)]>
            (<[off + 3 := byte_of (v ≫ 24)]>
            (<[off + 2 := byte_of (v ≫ 16)]>
            (<[off + 1 := byte_of (v ≫ 8)]>
            (<[off := byte_of v]> b))))))))
  else Panics "slice bounds out of range".

(** *** Dynamically typed values

    The values of type [any] that a document holds: strings, integers,
    booleans, floats of either size, vectors of floats of either size, and
    nil. *)
Inductive any : Type :=
  | AString (s : string)
  | AInt (n : Z)
  | ABool (b : bool)
  | AFloat32 (f : float32)
  | AFloat64 (f : float64)
  | AFloat32s (v : list float32)
  | AFloat64s (v : list float64)
  | ANil.

(** *** Map iteration order

    [range] over a map visits its entries in an order the run-time system
    picks. The pick is a list of choices: each choice takes one of the
    entries still to visit. Every result is a permutation of the entries,
    and every permutation is the result of some choices. *)
Fixpoint shuffle {A} (choices : list nat) (l : list A) : list A :=
  match choices with
  | [] => l
  | c :: choices' =>
      match l !! (c `mod` length l) with
      | Some x => x :: shuffle choices' (delete (c `mod` length l) l)
      | None => l
      end
  end.

(** ** Types of the client library and of the package *)

(** A built command ([rueidis.Completed]): its tokens. *)
Definition Completed := list string.

(** One row of a search reply ([rueidis.FtSearchDoc]). *)
Record FtSearchDoc := mkFtSearchDoc {
  Doc : gmap string string;
  Key : string;
  Score : float64;
}.

(** A reply ([rueidis.RedisResult]) by what its methods report. *)
Record RedisResult := mkRedisResult {
  Error : option error;
  AsFtSearch : Z * list FtSearchDoc * option error;
}.

(** Modelled from the spec: [RedisArbitraryCommand], declared in a sibling
    file of the package: the intermediate form of one command, a
    command-name list, a key list and an argument list. *)
Record RedisArbitraryCommand := mkCommand {
  Commands : list string;
  Keys : list string;
  Args : list string;
}.

(** Modelled from the spec: [Index], declared in a sibling file of the
    package: the index name, its schema, the key prefixes and the kind of
    storage, the four fields [CreateIndexIfNotExists] sets. *)
Record Index (IndexSchema : Type) := mkIndex {
  Name : string;
  Schema : IndexSchema;
  Prefix : list string;
  IndexType : string;
}.
Arguments mkIndex {IndexSchema}.
Arguments Name {IndexSchema}.
Arguments Schema {IndexSchema}.
Arguments Prefix {IndexSchema}.
Arguments IndexType {IndexSchema}.

(** [B().Arbitrary(c.Commands...).Keys(c.Keys...).Args(c.Args...).Build()] *)
Definition Arbitrary_Build (c : RedisArbitraryCommand) : Completed :=
  Commands c ++ Keys c ++ Args c.

(** [B().FtInfo().Index(index).Build()] *)
Definition FtInfo_Build (index : string) : Completed := ["FT.INFO"; index].

(** [B().FtDropindex().Index(index).Build()], with [.Dd()] when [dd]. *)
Definition FtDropindex_Build (index : string) (dd : bool) : Completed :=
  if dd then ["FT.DROPINDEX"; index; "DD"] else ["FT.DROPINDEX"; index].

(** A call on the client, as the log of a run records it. *)
Inductive Call : Type :=
  | CallDo (cmd : Completed)
  | CallDoMulti (cmds : list Completed).

(** ** Parameters *)

(** The client ([rueidis.Client]) with the server behind it: a command, or a
    pipelined batch of commands, takes the server from one state to the next
    and yields a reply, or a list of replies. *)
Class Client := {
  Server : Type;
  client_Do : Server -> Completed -> Server * RedisResult;
  client_DoMulti : Server -> list Completed -> Server * list RedisResult;
}.

(** What [strconv] makes of a text read as a float of a given size: the
    nearest float; an infinity, for a well-formed text out of range; or no
    number at all, for a text that is not well formed. *)
Inductive atof_result : Type :=
  | AtofValue (f : float64)
  | AtofRange (inf : float64)
  | AtofSyntax.

(** The run-time system and the standard library's number routines.
    - [uuid_String n]: the text of the identifier [uuid.New] yields at draw [n];
    - [range_choices n]: the choices of the map iteration at draw [n];
    - [fmtFloat size bits]: the text [fmt] prints under [%v] for the float of
      [size] bits with that pattern;
    - [atof s size]: the reading of the text [s] as a float of [size] bits;
    - [round32 f]: the float32 nearest to a float64 that is not zero. *)
Class Runtime := {
  uuid_String : nat -> string;
  range_choices : nat -> list nat;
  fmtFloat : nat -> Z -> string;
  atof : string -> nat -> atof_result;
  round32 : float64 -> float32;
}.

(** Declarations of the package that live in sibling files: the index schema
    and the query object, each with the method that turns it into a command. *)
Class Schemas := {
  IndexSchema : Type;
  RedisVectorQuery : Type;
  Index_ToCommand : Index IndexSchema -> RedisArbitraryCommand;
  RedisVectorQuery_ToCommand : RedisVectorQuery -> RedisArbitraryCommand;
}.

(** Modelled from the spec: [vecdbtypes.CommonSpec], declared in a sibling
    package; the store type tag and the similarity threshold are the fields
    the code at hand reads. *)
Record CommonSpec := mkCommonSpec {
  Type_ : string;
  Threshold : float64;
  Limit : Z;
}.

(** The two engines: their spec types, constructors and validators (sibling
    packages [redisvector] and [pgvector]); a nil sub-spec is [None]. *)
Class Engines := {
  VectorDB : Type;
  RedisVectorDBSpec : Type;
  PostgresVectorDBSpec : Type;
  redisvector_New : CommonSpec -> option RedisVectorDBSpec -> Outcome VectorDB;
  pgvector_New : CommonSpec -> option PostgresVectorDBSpec -> Outcome VectorDB;
  redisvector_ValidateSpec : option RedisVectorDBSpec -> Outcome (option error);
  pgvector_ValidateSpec : option PostgresVectorDBSpec -> Outcome (option error);
}.

(** ** Package redisvector *)

Section redisvector.
Context `{Client} `{Runtime} `{Schemas}.

(** *** [strconv] and conversions *)

(** [strconv.ParseFloat(s, size)]: the value and the error. A syntax error
    comes with the value zero, a range error with an infinity. *)
Definition ParseFloat (s : string) (size : nat) : float64 * option error :=
  match atof s size with
  | AtofValue f => (f, None)
  | AtofRange inf => (inf, Some (NumError "ParseFloat" s ErrRange))
  | AtofSyntax => (0%Z, Some (NumError "ParseFloat" s ErrSyntax))
  end.

(** The conversion [float32(f)]: a zero stays a zero of its sign. *)
Definition float32_of_float64 (f : float64) : float32 :=
  if decide (Float64bits f `mod` 2 ^ 63 = 0)%Z
  then ((Float64bits f ≫ 63) ≪ 31)%Z
  else round32 f.

(** *** [fmt] *)

(** [fmt.Sprintf("%v", x)] *)
Definition Sprintf_v (x : any) : string :=
  match x with
  | AString s => s
  | AInt n => pretty n
  | ABool b => if b then "true" else "false"
  | AFloat32 f => fmtFloat 32 (Float32bits f)
  | AFloat64 f => fmtFloat 64 (Float64bits f)
  | AFloat32s v =>
      "[" +:+ String.concat " " (map (fun f => fmtFloat 32 (Float32bits f)) v) +:+ "]"
  | AFloat64s v =>
      "[" +:+ String.concat " " (map (fun f => fmtFloat 64 (Float64bits f)) v) +:+ "]"
  | ANil => "<nil>"
  end.

(** What [fmt] prints for an operand the verb [%s] does not apply to. *)
Definition bad_verb_s (type text : string) : string :=
  "%!s(" +:+ type +:+ "=" +:+ text +:+ ")".

(** [fmt.Sprintf("%s", x)] *)
Definition Sprintf_s (x : any) : string :=
  match x with
  | AString s => s
  | AInt n => bad_verb_s "int" (pretty n)
  | ABool b => bad_verb_s "bool" (if b then "true" else "false")
  | AFloat32 f => bad_verb_s "float32" (fmtFloat 32 (Float32bits f))
  | AFloat64 f => bad_verb_s "float64" (fmtFloat 64 (Float64bits f))
  | AFloat32s v =>
      "[" +:+ String.concat " "
        (map (fun f => bad_verb_s "float32" (fmtFloat 32 (Float32bits f))) v) +:+ "]"
  | AFloat64s v =>
      "[" +:+ String.concat " "
        (map (fun f => bad_verb_s "float64" (fmtFloat 64 (Float64bits f))) v) +:+ "]"
  | ANil => "%!s(<nil>)"
  end.

(** [fmt.Sprintf("%s:%s", prefix, x)] *)
Definition Sprintf_s_colon_s (prefix : string) (x : any) : string :=
  prefix +:+ ":" +:+ Sprintf_s x.

(** *** The state of a run *)

Record World := mkWorld {
  heap : gmap nat (gmap string any);
  draws : nat;
  server : Server;
  calls : list Call;
}.

(** A computation of the package: it reads and changes the world, and
    returns or panics. *)
Definition Go (A : Type) : Type := World -> Outcome (A * World).

Definition go_ret {A} (a : A) : Go A := fun w => Returns (a, w).

Definition go_bind {A B} (m : Go A) (k : A -> Go B) : Go B :=
  fun w =>
    match m w with
    | Returns (a, w') => k a w'
    | Panics msg => Panics msg
    end.

Definition go_lift {A} (m : Outcome A) : Go A :=
  fun w =>
    match m with
    | Returns a => Returns (a, w)
    | Panics msg => Panics msg
    end.

Notation "'let*' x ':=' m 'in' k" := (go_bind m (fun x => k))
  (at level 10, x pattern, m at level 100, k at level 200, only parsing).

(** [v, ok := m[k]]: a nil map has no entry. *)
Definition mapaccess (m : nat) (k : string) : Go (option any) :=
  fun w => Returns (heap w !! m ≫= (.!! k), w).

(** [m[k] = v]: panics on a nil map. *)
Definition mapassign (m : nat) (k : string) (v : any) : Go unit :=
  fun w =>
    match heap w !! m with
    | Some d =>
        Returns (tt, mkWorld (<[m := <[k := v]> d]> (heap w)) (draws w) (server w) (calls w))
    | None => Panics "assignment to entry in nil map"
    end.

(** The entries [for k, v := range m] visits, in the order of this visit. *)
Definition maprange (m : nat) : Go (list (string * any)) :=
  fun w =>
    Returns (shuffle (range_choices (draws w)) (map_to_list (default ∅ (heap w !! m))),
             mkWorld (heap w) (S (draws w)) (server w) (calls w)).

(** [uuid.New().String()] *)
Definition uuid_New_String : Go string :=
  fun w =>
    Returns (uuid_String (draws w), mkWorld (heap w) (S (draws w)) (server w) (calls w)).

(** [c.client.Do(ctx, cmd)] *)
Definition Do (cmd : Completed) : Go RedisResult :=
  fun w =>
    let (s', r) := client_Do (server w) cmd in
    Returns (r, mkWorld (heap w) (draws w) s' (calls w ++ [CallDo cmd])).

(** [c.client.DoMulti(ctx, cmds...)] *)
Definition DoMulti (cmds : list Completed) : Go (list RedisResult) :=
  fun w =>
    let (s', rs) := client_DoMulti (server w) cmds in
    Returns (rs, mkWorld (heap w) (draws w) s' (calls w ++ [CallDoMulti cmds])).

(** [l[0]] *)
Definition index0 (l : list string) : Outcome string :=
  match l with
  | x :: _ => Returns x
  | [] => Panics "index out of range [0] with length 0"
  end.

(** *** The vector codec *)

(** The loop [for i, e := range v { i := i * 4; PutUint32(b[i:i+4], bits(e)) }],
    from index [i] on. *)
Fixpoint float32_loop (i : nat) (v : list float32) (b : list Z) : Outcome (list Z) :=
  match v with
  | [] => Returns b
  | e :: v' => obind (PutUint32 b (i * 4) (Float32bits e)) (float32_loop (S i) v')
  end.

Definition float32VectorToString (v : list float32) : Outcome string :=
  let b := replicate (length v * 4) 0%Z in
  obind (float32_loop 0 v b) (fun b' => Returns (string_of_bytes b')).

Fixpoint float64_loop (i : nat) (v : list float64) (b : list Z) : Outcome (list Z) :=
  match v with
  | [] => Returns b
  | e :: v' => obind (PutUint64 b (i * 8) (Float64bits e)) (float64_loop (S i) v')
  end.

Definition float64VectorToString (v : list float64) : Outcome string :=
  let b := replicate (length v * 8) 0%Z in
  obind (float64_loop 0 v b) (fun b' => Returns (string_of_bytes b')).

(** *** Upsert commands *)

(** The loop of [toHmsetCommand] over the entries of the document: each
    appends the field name and the text of its value to the arguments. *)
Fixpoint hmset_args (entries : list (string * any)) (args : list string)
  : Outcome (list string) :=
  match entries with
  | [] => Returns args
  | (key, value) :: rest =>
      match value with
      | AFloat64s v =>
          obind (float64VectorToString v) (fun s => hmset_args rest (args ++ [key; s]))
      | AFloat32s v =>
          obind (float32VectorToString v) (fun s => hmset_args rest (args ++ [key; s]))
      | v => hmset_args rest (args ++ [key; Sprintf_v v])
      end
  end.

Definition toHmsetCommand (prefix : string) (doc : nat) : Go RedisArbitraryCommand :=
  let* entries := maprange doc in
  let* args := go_lift (hmset_args entries []) in
  let* idx := mapaccess doc "id" in
  match idx with
  | Some idx => go_ret (mkCommand ["HMSET"] [Sprintf_s_colon_s prefix idx] args)
  | None =>
      let* keys := mapaccess doc "keys" in
      match keys with
      | Some keys =>
          let* _ := mapassign doc "id" keys in
          go_ret (mkCommand ["HMSET"] [Sprintf_s_colon_s prefix keys] args)
      | None =>
          let* uuidx := uuid_New_String in
          let* _ := mapassign doc "id" (AString uuidx) in
          go_ret (mkCommand ["HMSET"] [Sprintf_s_colon_s prefix (AString uuidx)] args)
      end
  end.

Definition InsertWithHash (index : string) (doc : nat) : Go (string * option error) :=
  let* command := toHmsetCommand index doc in
  let* key := go_lift (index0 (Keys command)) in
  let* res := Do (Arbitrary_Build command) in
  go_ret (key, Error res).

(** The first loop of [InsertManyWithHash]: one command per document. *)
Fixpoint build_commands (index : string) (docs : list nat)
    (commands : list Completed) (docIDs : list string)
  : Go (list Completed * list string) :=
  match docs with
  | [] => go_ret (commands, docIDs)
  | doc :: rest =>
      let* command := toHmsetCommand index doc in
      let* key := go_lift (index0 (Keys command)) in
      build_commands index rest (commands ++ [Arbitrary_Build command]) (docIDs ++ [key])
  end.

(** The second loop: the errors of the replies, in order. *)
Fixpoint collect_errors (result : list RedisResult) (errs : list (option error))
  : list (option error) :=
  match result with
  | [] => errs
  | res :: rest =>
      match Error res with
      | Some e => collect_errors rest (errs ++ [Some e])
      | None => collect_errors rest errs
      end
  end.

Definition InsertManyWithHash (index : string) (docs : list nat)
  : Go (list string * option error) :=
  let* (commands, docIDs) := build_commands index docs [] [] in
  let* result := DoMulti commands in
  go_ret (docIDs, errors_Join (collect_errors result [])).

(** *** Index management *)

Definition DropIndex (index : string) (deleteDocuments : bool) : Go (option error) :=
  let* res := Do (FtDropindex_Build index deleteDocuments) in
  go_ret (Error res).

Definition CheckIndexExists (index : string) : Go bool :=
  if decide (index = "") then go_ret false
  else
    let* res := Do (FtInfo_Build index) in
    go_ret (bool_decide (Error res = None)).

Definition getPrefix (index : string) : string := index +:+ ":".

Definition CreateIndexIfNotExists (index : string) (schema : IndexSchema)
  : Go (option error) :=
  if decide (index = "") then go_ret (Some (ErrorString "empty index name"))
  else
    let* exists_ := CheckIndexExists index in
    if exists_ : bool then go_ret None
    else
      let redisIndex := mkIndex index schema [getPrefix index] "HASH" in
      let command := Index_ToCommand redisIndex in
      let* res := Do (Arbitrary_Build command) in
      go_ret (Error res).

(** *** Search *)

(** The inner loop of the conversion over the fields of one row. *)
Fixpoint convert_fields (fields : list (string * string)) (docMap : gmap string any)
  : gmap string any :=
  match fields with
  | [] => docMap
  | (k, field) :: rest =>
      if decide (k = "distance") then
        let score := fst (ParseFloat field 32) in
        convert_fields rest (<["score" := AFloat32 (float32_of_float64 score)]> docMap)
      else
        convert_fields rest (<[k := AString field]> docMap)
  end.

(** The conversion of one row, given the choices of its iteration. *)
Definition convert_doc (choices : list nat) (doc : FtSearchDoc) : gmap string any :=
  let docMap := convert_fields (shuffle choices (map_to_list (Doc doc))) ∅ in
  match docMap !! "id" with
  | Some _ => docMap
  | None => <["id" := AString (Key doc)]> docMap
  end.

Fixpoint convert_loop (docs : list FtSearchDoc) (result : list (gmap string any))
  : Go (list (gmap string any)) :=
  match docs with
  | [] => go_ret result
  | doc :: rest =>
      fun w =>
        convert_loop rest (result ++ [convert_doc (range_choices (draws w)) doc])
          (mkWorld (heap w) (S (draws w)) (server w) (calls w))
  end.

Definition convertFTSearchResIntoMapSchema (docs : list FtSearchDoc)
  : Go (list (gmap string any)) :=
  convert_loop docs [].

Definition Find (query : RedisVectorQuery)
  : Go (Z * option (list (gmap string any)) * option error) :=
  let command := RedisVectorQuery_ToCommand query in
  let* res := Do (Arbitrary_Build command) in
  let '(total, docs, err) := AsFtSearch res in
  match err with
  | Some e => go_ret (0%Z, None, Some e)
  | None =>
      let* converted := convertFTSearchResIntoMapSchema docs in
      go_ret (total, Some converted, None)
  end.

End redisvector.

(** ** Package vectordb *)

Section vectordb.
Context `{Engines}.

(** The embedded [vecdbtypes.CommonSpec] is the field [Common]; a nil
    sub-spec pointer is [None]. *)
Record Spec := mkSpec {
  Common : CommonSpec;
  Redis : option RedisVectorDBSpec;
  Postgres : option PostgresVectorDBSpec;
}.

Definition TypeRedis : string := "redis".
Definition TypePostgres : string := "postgres".

Definition New (spec : Spec) : Outcome VectorDB :=
  if decide (Type_ (Common spec) = TypeRedis) then
    redisvector_New (Common spec) (Redis spec)
  else if decide (Type_ (Common spec) = TypePostgres) then
    pgvector_New (Common spec) (Postgres spec)
  else Panics "not supported vector db type".

Definition ValidateSpec (spec : Spec) : Outcome (option error) :=
  if f64_le (Threshold (Common spec)) f64_zero || f64_gt (Threshold (Common spec)) f64_one
  then Returns (Some (ErrorString "invalid threshold"))
  else if decide (Type_ (Common spec) = TypeRedis) then
    redisvector_ValidateSpec (Redis spec)
  else if decide (Type_ (Common spec) = TypePostgres) then
    pgvector_ValidateSpec (Postgres spec)
  else Returns (Some (ErrorString "invalid spec type")).

End vectordb.

(** ** What the design document says, in its own words *)

(** The identifier of a document by priority: the explicit "id" field, else
    the "keys" field, else the freshly generated one. *)
Definition chosen_identifier (d : gmap string any) (fresh : string) : any :=
  match d !! "id" with
  | Some idx => idx
  | None =>
      match d !! "keys" with
      | Some keys => keys
      | None => AString fresh
      end
  end.

(** The bytes of a vector of floats: each component lowest byte first. *)
Definition le_bytes (width : nat) (bits : Z) : list Z :=
  map (fun k => ((bits ≫ (8 * Z.of_nat k)) `mod` 256)%Z) (seq 0 width).

Definition float32_bytes (v : list float32) : list Z :=
  flat_map (fun e => le_bytes 4 (Float32bits e)) v.

Definition float64_bytes (v : list float64) : list Z :=
  flat_map (fun e => le_bytes 8 (Float64bits e)) v.

(** The unsigned integer a little-endian byte sequence stands for. *)
Fixpoint le_uint (bytes : list Z) : Z :=
  match bytes with
  | [] => 0%Z
  | x :: rest => (x + 256 * le_uint rest)%Z
  end.

(** The bytes [s[off : off+width]] of a string, when they are in range. *)
Definition string_bytes_at (s : string) (off width : nat) : option (list Z) :=
  mapM (string_byte s) (seq off width).

(** The text of one document field in an upsert command: vectors in binary,
    everything else as [%v] prints it. *)
Definition field_text `{Runtime} (value : any) : string :=
  match value with
  | AFloat64s v => string_of_bytes (float64_bytes v)
  | AFloat32s v => string_of_bytes (float32_bytes v)
  | v => Sprintf_v v
  end.

(** The arguments of an upsert command for the entries in the order given. *)
Definition fields_args `{Runtime} (entries : list (string * any)) : list string :=
  flat_map (fun kv => [fst kv; field_text (snd kv)]) entries.

(** How upserts may change one document: not at all, or by storing under
    "id" the identifier it lacked. *)
Definition id_assigned `{Runtime} (d d' : gmap string any) : Prop :=
  match d !! "id" with
  | Some _ => d' = d
  | None =>
      d' = d ∨
      match d !! "keys" with
      | Some keys => d' = <["id" := keys]> d
      | None => exists n, d' = <["id" := AString (uuid_String n)]> d
      end
  end.

(** How upserts may change the heap: every document as above, and no map
    appears or disappears. *)
Definition heap_evolves `{Runtime} (h h' : gmap nat (gmap string any)) : Prop :=
  forall l,
    match h !! l with
    | Some d => exists d', h' !! l = Some d' ∧ id_assigned d d'
    | None => h' !! l = None
    end.

(** The command that creates the index [index] over hashes whose keys
    start with the prefix of the index. *)
Definition create_command `{Schemas} (index : string) (schema : IndexSchema) : Completed :=
  Arbitrary_Build (Index_ToCommand (mkIndex index schema [getPrefix index] "HASH")).

(** What the document says of the conversion of one search row [doc] into
    the mapping [m]: "distance" is renamed to "score", parsed, so that the
    mapping has the parsed value under "score" and nothing under "distance";
    every other field passes under its own name; the row key stands in for
    a missing "id". *)
Definition row_converted `{Runtime} (doc : FtSearchDoc) (m : gmap string any) : Prop :=
  (∀ field, Doc doc !! "distance" = Some field ->
     m !! "score" = Some (AFloat32 (float32_of_float64 (fst (ParseFloat field 32)))))
  ∧ (∀ k field, k ≠ "distance" -> Doc doc !! k = Some field ->
       m !! k = Some (AString field))
  ∧ (Doc doc !! "id" = None -> m !! "id" = Some (AString (Key doc)))
  ∧ m !! "distance" = None.

(** ** A reference instance of the parameters

    A small store with the commands the package sends: index probe,
    creation and removal, and hash upserts. *)

Record demoStore := mkDemoStore {
  indexes : list string;
  hashes : list (string * list string);
}.

Definition demo_ok : RedisResult := mkRedisResult None (0%Z, [], None).
Definition demo_err (msg : string) : RedisResult :=
  mkRedisResult (Some (ErrorString msg)) (0%Z, [], Some (ErrorString msg)).

Definition demo_Do (s : demoStore) (cmd : Completed) : demoStore * RedisResult :=
  match cmd with
  | "FT.INFO" :: index :: _ =>
      if bool_decide (index ∈ indexes s) then (s, demo_ok)
      else (s, demo_err "Unknown index name")
  | "FT.CREATE" :: index :: _ =>
      if bool_decide (index ∈ indexes s) then (s, demo_err "Index already exists")
      else (mkDemoStore (index :: indexes s) (hashes s), demo_ok)
  | "FT.DROPINDEX" :: index :: _ =>
      if bool_decide (index ∈ indexes s)
      then (mkDemoStore (filter (fun i => i ≠ index) (indexes s)) (hashes s), demo_ok)
      else (s, demo_err "Unknown index name")
  | "HMSET" :: key :: field :: value :: rest =>
      (mkDemoStore (indexes s) ((key, field :: value :: rest) :: hashes s), demo_ok)
  | "HMSET" :: _ => (s, demo_err "wrong number of arguments for HMSET")
  | _ => (s, demo_err "unknown command")
  end.

Fixpoint demo_DoMulti (s : demoStore) (cmds : list Completed)
  : demoStore * list RedisResult :=
  match cmds with
  | [] => (s, [])
  | cmd :: rest =>
      let (s1, r) := demo_Do s cmd in
      let (s2, rs) := demo_DoMulti s1 rest in
      (s2, r :: rs)
  end.

Definition demoClient : Client :=
  {| Server := demoStore; client_Do := demo_Do; client_DoMulti := demo_DoMulti |}.

(** Sample values of the number routines: the texts "0" and "0.12" are
    read as numbers, "1e999" is out of range, any other text is not well
    formed; the rounding to 32 bits is tabulated for 0.12 and the infinity. *)
Definition demo_atof (s : string) (size : nat) : atof_result :=
  if decide (s = "0.12") then AtofValue 0x3FBEB851E0000000%Z
  else if decide (s = "0") then AtofValue 0%Z
  else if decide (s = "1e999") then AtofRange 0x7FF0000000000000%Z
  else AtofSyntax.

Definition demo_round32 (f : float64) : float32 :=
  if decide (f = 0x3FBEB851E0000000%Z) then 0x3DF5C28F%Z
  else if decide (f = 0x7FF0000000000000%Z) then 0x7F800000%Z
  else 0x7FC00000%Z.

Definition demoRuntime : Runtime :=
  {| uuid_String := fun n => "uuid-" +:+ pretty n;
     range_choices := fun n => [n];
     fmtFloat := fun _ _ => "0";
     atof := demo_atof;
     round32 := demo_round32 |}.

Definition demoSchemas : Schemas :=
  {| IndexSchema := list string;
     RedisVectorQuery := string;
     Index_ToCommand := fun i =>
       mkCommand ["FT.CREATE"] [Name i]
         (["ON"; IndexType i; "PREFIX"; "1"] ++ Prefix i ++ ["SCHEMA"] ++ Schema i);
     RedisVectorQuery_ToCommand := fun q => mkCommand ["FT.SEARCH"] [q] [] |}.

Definition demoEngines : Engines :=
  {| VectorDB := string;
     RedisVectorDBSpec := string;
     PostgresVectorDBSpec := string;
     redisvector_New := fun _ _ => Returns "redis";
     pgvector_New := fun _ _ => Returns "postgres";
     redisvector_ValidateSpec := fun s =>
       Returns (if s is Some _ then None else Some (ErrorString "no redis spec"));
     pgvector_ValidateSpec := fun s =>
       Returns (if s is Some _ then None else Some (ErrorString "no postgres spec")) |}.

(** Sample documents: one with neither "id" nor "keys", one with an "id",
    one with "keys" and a vector, one without any field (the store refuses
    its upsert, which has no field to set); and a world that holds them,
    with an empty store and no call made. *)
Definition demo_heap : gmap nat (gmap string any) :=
  {[ 0 := {[ "title" := AString "a" ]};
     1 := {[ "id" := AString "42"; "title" := AString "b" ]};
     2 := {[ "keys" := AString "k1"; "vec" := AFloat32s [0x3F800000%Z] ]};
     3 := ∅ ]}.

Definition demo_world : @World demoClient :=
  @mkWorld demoClient demo_heap 0 (mkDemoStore [] []) [].


(** Sample rows of a search reply. *)
Definition demo_row : FtSearchDoc :=
  mkFtSearchDoc {[ "distance" := "0.12"; "title" := "a" ]} "idx:1" 0%Z.

Definition demo_row_malformed : FtSearchDoc :=
  mkFtSearchDoc {[ "distance" := "abc"; "title" := "a" ]} "idx:2" 0%Z.

Definition demo_row_with_score : FtSearchDoc :=
  mkFtSearchDoc {[ "distance" := "0.12"; "score" := "x" ]} "idx:3" 0%Z.

Definition demo_row_score_alone : FtSearchDoc :=
  mkFtSearchDoc {[ "score" := "x"; "title" := "a" ]} "idx:6" 0%Z.

Definition demo_row_malformed_with_score : FtSearchDoc :=
  mkFtSearchDoc {[ "distance" := "abc"; "score" := "x" ]} "idx:4" 0%Z.

Definition demo_row_out_of_range : FtSearchDoc :=
  mkFtSearchDoc {[ "distance" := "1e999"; "title" := "a" ]} "idx:5" 0%Z.

(** Sample specs of a store: a type tag no engine answers to, and the
    Redis engine with its sub-spec; both with threshold 0.5. *)
Definition demo_spec_unknown : @Spec demoEngines :=
  @mkSpec demoEngines (mkCommonSpec "milvus" 0x3FE0000000000000%Z 10%Z) None None.

Definition demo_spec_redis : @Spec demoEngines :=
  @mkSpec demoEngines (mkCommonSpec "redis" 0x3FE0000000000000%Z 10%Z)
    (Some "localhost:6379") None.

(** The Redis engine again, with a threshold that is not a number. *)
Definition demo_spec_not_a_number : @Spec demoEngines :=
  @mkSpec demoEngines (mkCommonSpec "redis" 0x7FF8000000000000%Z 10%Z)
    (Some "localhost:6379") None.

(** * Properties *)

(** ** The vector codec *)

Section codec_properties.

Lemma string_of_bytes_length (b : list Z) :
  String.length (string_of_bytes b) = length b.
Proof. induction b as [|x b IH]; simpl; [reflexivity | now rewrite IH]. Qed.

Lemma string_byte_of_bytes (b : list Z) (n : nat) (x : Z) :
  b !! n = Some x -> (0 ≤ x < 256)%Z ->
  string_byte (string_of_bytes b) n = Some x.
Proof.
  revert n. induction b as [|y b IH]; intros n Hn Hx; [done |].
  destruct n as [|n]; simpl in *.
  - injection Hn as ->. unfold string_byte. simpl. f_equal.
    rewrite N_ascii_embedding by lia. lia.
  - unfold string_byte in *. simpl. now apply IH.
Qed.

Lemma le_bytes_length (w : nat) (bits : Z) : length (le_bytes w bits) = w.
Proof. unfold le_bytes. now rewrite length_map, length_seq. Qed.

Lemma le_bytes_lookup (w k : nat) (bits : Z) :
  k < w -> le_bytes w bits !! k = Some ((bits ≫ (8 * Z.of_nat k)) `mod` 256)%Z.
Proof.
  intros Hk. unfold le_bytes.
  change (map ?f ?l) with (f <$> l). rewrite list_lookup_fmap.
  assert (seq 0 w !! k = Some k) as -> by (apply lookup_seq; lia).
  reflexivity.
Qed.

Lemma vec_bytes_length {A} (w : nat) (f : A -> Z) (v : list A) :
  length (flat_map (fun e => le_bytes w (f e)) v) = w * length v.
Proof.
  induction v as [|e v IH]; simpl; [lia |].
  rewrite length_app, le_bytes_length, IH. lia.
Qed.

Lemma vec_bytes_lookup {A} (w : nat) (f : A -> Z) (v : list A) (i k : nat) (e : A) :
  v !! i = Some e -> k < w ->
  flat_map (fun e => le_bytes w (f e)) v !! (w * i + k)
  = Some ((f e ≫ (8 * Z.of_nat k)) `mod` 256)%Z.
Proof.
  revert i. induction v as [|e' v IH]; intros i Hi Hk; [done |].
  destruct i as [|i]; simpl in *.
  - injection Hi as ->.
    rewrite lookup_app_l by (rewrite le_bytes_length; lia).
    replace (w * 0 + k) with k by lia. now apply le_bytes_lookup.
  - rewrite lookup_app_r by (rewrite le_bytes_length; lia).
    rewrite le_bytes_length.
    replace (w * S i + k - w) with (w * i + k) by lia. now apply IH.
Qed.

(** Four stores at the offset where a prefix ends replace the four bytes
    that follow the prefix. *)
Lemma write4_app (l1 rest : list Z) (x0 x1 x2 x3 y0 y1 y2 y3 : Z) :
  <[length l1 + 3 := y3]> (<[length l1 + 2 := y2]> (<[length l1 + 1 := y1]>
    (<[length l1 := y0]> (l1 ++ x0 :: x1 :: x2 :: x3 :: rest))))
  = l1 ++ y0 :: y1 :: y2 :: y3 :: rest.
Proof.
  induction l1 as [|a l1 IH]; simpl; [reflexivity |].
  f_equal. exact IH.
Qed.

Lemma write8_app (l1 rest : list Z) (x0 x1 x2 x3 x4 x5 x6 x7 y0 y1 y2 y3 y4 y5 y6 y7 : Z) :
  <[length l1 + 7 := y7]> (<[length l1 + 6 := y6]> (<[length l1 + 5 := y5]>
    (<[length l1 + 4 := y4]> (<[length l1 + 3 := y3]> (<[length l1 + 2 := y2]>
    (<[length l1 + 1 := y1]> (<[length l1 := y0]>
       (l1 ++ x0 :: x1 :: x2 :: x3 :: x4 :: x5 :: x6 :: x7 :: rest))))))))
  = l1 ++ y0 :: y1 :: y2 :: y3 :: y4 :: y5 :: y6 :: y7 :: rest.
Proof.
  induction l1 as [|a l1 IH]; simpl; [reflexivity |].
  f_equal. exact IH.
Qed.

(** The loop over the components fills the buffer behind the bytes already
    written with the bytes of the remaining components, and does not panic. *)
Lemma float32_loop_app (v : list float32) :
  forall (i : nat) (pre zs : list Z),
    length pre = i * 4 -> length zs = 4 * length v ->
    float32_loop i v (pre ++ zs) = Returns (pre ++ float32_bytes v).
Proof.
  induction v as [|e v IH]; intros i pre zs Hpre Hzs; simpl in *.
  - destruct zs; [reflexivity | discriminate].
  - destruct zs as [|x0 [|x1 [|x2 [|x3 zs]]]]; simpl in Hzs; try lia.
    unfold PutUint32.
    rewrite decide_True by (rewrite length_app; simpl; lia).
    simpl. rewrite <- Hpre, write4_app.
    assert (forall bits, pre ++ byte_of bits :: byte_of (bits ≫ 8)
              :: byte_of (bits ≫ 16) :: byte_of (bits ≫ 24) :: zs
            = (pre ++ le_bytes 4 bits) ++ zs) as ->
      by (intros; rewrite <- app_assoc; reflexivity).
    rewrite (IH (S i) (pre ++ le_bytes 4 (Float32bits e)) zs).
    + now rewrite <- app_assoc.
    + rewrite length_app, le_bytes_length. lia.
    + lia.
Qed.

Lemma float64_loop_app (v : list float64) :
  forall (i : nat) (pre zs : list Z),
    length pre = i * 8 -> length zs = 8 * length v ->
    float64_loop i v (pre ++ zs) = Returns (pre ++ float64_bytes v).
Proof.
  induction v as [|e v IH]; intros i pre zs Hpre Hzs; simpl in *.
  - destruct zs; [reflexivity | discriminate].
  - destruct zs as [|x0 [|x1 [|x2 [|x3 [|x4 [|x5 [|x6 [|x7 zs]]]]]]]];
      simpl in Hzs; try lia.
    unfold PutUint64.
    rewrite decide_True by (rewrite length_app; simpl; lia).
    simpl. rewrite <- Hpre, write8_app.
    assert (forall bits, pre ++ byte_of bits :: byte_of (bits ≫ 8)
              :: byte_of (bits ≫ 16) :: byte_of (bits ≫ 24)
              :: byte_of (bits ≫ 32) :: byte_of (bits ≫ 40)
              :: byte_of (bits ≫ 48) :: byte_of (bits ≫ 56) :: zs
            = (pre ++ le_bytes 8 bits) ++ zs) as ->
      by (intros; rewrite <- app_assoc; reflexivity).
    rewrite (IH (S i) (pre ++ le_bytes 8 (Float64bits e)) zs).
    + now rewrite <- app_assoc.
    + rewrite length_app, le_bytes_length. lia.
    + lia.
Qed.

(** The encoders compute the byte sequences of the document, and return. *)
Lemma float32VectorToString_bytes (v : list float32) :
  float32VectorToString v = Returns (string_of_bytes (float32_bytes v)).
Proof.
  unfold float32VectorToString.
  pose proof (float32_loop_app v 0 [] (replicate (length v * 4) 0%Z)) as Hloop.
  simpl in Hloop. rewrite Hloop; [reflexivity | reflexivity |].
  rewrite length_replicate. lia.
Qed.

Lemma float64VectorToString_bytes (v : list float64) :
  float64VectorToString v = Returns (string_of_bytes (float64_bytes v)).
Proof.
  unfold float64VectorToString.
  pose proof (float64_loop_app v 0 [] (replicate (length v * 8) 0%Z)) as Hloop.
  simpl in Hloop. rewrite Hloop; [reflexivity | reflexivity |].
  rewrite length_replicate. lia.
Qed.

(** Decoding inverts the encoding of one component. *)
Lemma le_uint_le_bytes_4 (bits : Z) :
  (0 ≤ bits < 2 ^ 32)%Z -> le_uint (le_bytes 4 bits) = bits.
Proof.
  intros Hb. unfold le_bytes. cbn [seq map le_uint].
  rewrite !Z.shiftr_div_pow2 by lia.
  Z.to_euclidean_division_equations. lia.
Qed.

Lemma le_uint_le_bytes_8 (bits : Z) :
  (0 ≤ bits < 2 ^ 64)%Z -> le_uint (le_bytes 8 bits) = bits.
Proof.
  intros Hb. unfold le_bytes. cbn [seq map le_uint].
  rewrite !Z.shiftr_div_pow2 by lia.
  Z.to_euclidean_division_equations. lia.
Qed.

(** C3. A vector of [n] 32-bit floats is encoded in exactly [4 * n] bytes,
    component [i] in bytes [4i .. 4i+3], lowest byte of its bit pattern
    first; a vector of [n] 64-bit floats in exactly [8 * n] bytes, component
    [i] in bytes [8i .. 8i+7], lowest byte first. *)
Theorem C3_vector_encoding_layout :
  (forall v : list float32,
     exists s, float32VectorToString v = Returns s
       ∧ String.length s = 4 * length v
       ∧ forall i e k, v !! i = Some e -> k < 4 ->
           string_byte s (4 * i + k)
           = Some ((Float32bits e ≫ (8 * Z.of_nat k)) `mod` 256)%Z)
  ∧ (forall v : list float64,
       exists s, float64VectorToString v = Returns s
         ∧ String.length s = 8 * length v
         ∧ forall i e k, v !! i = Some e -> k < 8 ->
             string_byte s (8 * i + k)
             = Some ((Float64bits e ≫ (8 * Z.of_nat k)) `mod` 256)%Z).
Proof.
  split; intros v.
  - exists (string_of_bytes (float32_bytes v)). split; [|split].
    + apply float32VectorToString_bytes.
    + rewrite string_of_bytes_length. apply vec_bytes_length.
    + intros i e k Hi Hk. apply string_byte_of_bytes.
      * now apply (vec_bytes_lookup 4 Float32bits).
      * apply Z.mod_pos_bound. lia.
  - exists (string_of_bytes (float64_bytes v)). split; [|split].
    + apply float64VectorToString_bytes.
    + rewrite string_of_bytes_length. apply vec_bytes_length.
    + intros i e k Hi Hk. apply string_byte_of_bytes.
      * now apply (vec_bytes_lookup 8 Float64bits).
      * apply Z.mod_pos_bound. lia.
Qed.

End codec_properties.

(** ** Package vectordb: [New] and [ValidateSpec] *)

(** The comparison agrees with the order of the numbers on sample values:
    0.5 lies between 0 and 1; minus zero equals zero; -1 is below zero;
    the infinity is above 1; a NaN is neither below zero nor above 1. *)
Example f64_compare_samples :
  f64_lt f64_zero 0x3FE0000000000000%Z = true
  ∧ f64_le 0x3FE0000000000000%Z f64_one = true
  ∧ f64_le 0x8000000000000000%Z f64_zero = true
  ∧ f64_le 0xBFF0000000000000%Z f64_zero = true
  ∧ f64_gt 0x7FF0000000000000%Z f64_one = true
  ∧ f64_le 0x7FF8000000000000%Z f64_zero = false
  ∧ f64_gt 0x7FF8000000000000%Z f64_one = false.
Proof. repeat split; reflexivity. Qed.

Lemma f64_lt_not_ge (a b : float64) : f64_lt a b = true -> f64_le b a = false.
Proof.
  unfold f64_lt, f64_le.
  destruct (f64_isNaN a), (f64_isNaN b); simpl; try discriminate.
  intros Hlt. apply Z.ltb_lt in Hlt. apply Z.leb_gt. exact Hlt.
Qed.

Lemma f64_le_not_gt (a b : float64) : f64_le a b = true -> f64_gt a b = false.
Proof.
  unfold f64_gt, f64_lt, f64_le.
  destruct (f64_isNaN a), (f64_isNaN b); simpl; try discriminate.
  intros Hle. apply Z.leb_le in Hle. apply Z.ltb_ge. exact Hle.
Qed.

Section vectordb_properties.
Context `{Engines}.

(** A threshold outside (0, 1] is rejected whatever the engines are. *)
Lemma ValidateSpec_threshold_rejected (spec : Spec) :
  f64_le (Threshold (Common spec)) f64_zero = true
  ∨ f64_gt (Threshold (Common spec)) f64_one = true ->
  ValidateSpec spec = Returns (Some (ErrorString "invalid threshold")).
Proof.
  intros Hbad. unfold ValidateSpec.
  destruct Hbad as [-> | ->]; [reflexivity |].
  now rewrite orb_true_r.
Qed.

(** A threshold within (0, 1] passes the check: the answer is the one of the
    validator of the engine the type tag names. *)
Lemma ValidateSpec_threshold_passed (spec : Spec) :
  f64_lt f64_zero (Threshold (Common spec)) = true ->
  f64_le (Threshold (Common spec)) f64_one = true ->
  ValidateSpec spec =
    if decide (Type_ (Common spec) = TypeRedis) then
      redisvector_ValidateSpec (Redis spec)
    else if decide (Type_ (Common spec) = TypePostgres) then
      pgvector_ValidateSpec (Postgres spec)
    else Returns (Some (ErrorString "invalid spec type")).
Proof.
  intros Hpos Hle. unfold ValidateSpec.
  now rewrite (f64_lt_not_ge _ _ Hpos), (f64_le_not_gt _ _ Hle).
Qed.

(** C4, as amended. [ValidateSpec] rejects with "invalid threshold" whenever
    the threshold [t] has [t <= 0] or [t > 1.0], without consulting the
    engines; whenever [0 < t <= 1.0] the threshold check passes and the
    answer is the engine validator's for the types "redis" and "postgres",
    and an "invalid spec type" error for any other type. *)
Theorem C4_ValidateSpec_threshold_then_engine (spec : Spec) :
  (f64_le (Threshold (Common spec)) f64_zero = true
   ∨ f64_gt (Threshold (Common spec)) f64_one = true ->
   ValidateSpec spec = Returns (Some (ErrorString "invalid threshold")))
  ∧ (f64_lt f64_zero (Threshold (Common spec)) = true ->
     f64_le (Threshold (Common spec)) f64_one = true ->
     (Type_ (Common spec) = TypeRedis ->
        ValidateSpec spec = redisvector_ValidateSpec (Redis spec))
     ∧ (Type_ (Common spec) = TypePostgres ->
        ValidateSpec spec = pgvector_ValidateSpec (Postgres spec))
     ∧ (Type_ (Common spec) ≠ TypeRedis -> Type_ (Common spec) ≠ TypePostgres ->
        ValidateSpec spec = Returns (Some (ErrorString "invalid spec type")))).
Proof.
  split; [apply ValidateSpec_threshold_rejected |].
  intros Hpos Hle. rewrite (ValidateSpec_threshold_passed spec Hpos Hle).
  repeat split.
  - intros Hty. now rewrite decide_True.
  - intros Hty. rewrite decide_False, decide_True; [done | done |].
    rewrite Hty. discriminate.
  - intros Hr Hp. now rewrite !decide_False.
Qed.

(** C7. For a type tag that is neither "redis" nor "postgres", [New] panics,
    and [ValidateSpec] returns an error value. *)
Theorem C7_unknown_type_New_panics_ValidateSpec_errors (spec : Spec) :
  Type_ (Common spec) ≠ TypeRedis ->
  Type_ (Common spec) ≠ TypePostgres ->
  New spec = Panics "not supported vector db type"
  ∧ exists e, ValidateSpec spec = Returns (Some e).
Proof.
  intros Hr Hp. split.
  - unfold New. now rewrite !decide_False.
  - unfold ValidateSpec.
    destruct (f64_le _ _ || f64_gt _ _); [eauto |].
    rewrite !decide_False by done. eauto.
Qed.

End vectordb_properties.

(** ** Map iteration order *)

Lemma shuffle_Permutation {A} (choices : list nat) (l : list A) :
  shuffle choices l ≡ₚ l.
Proof.
  revert l. induction choices as [|c choices IH]; intros l; simpl; [done |].
  destruct (l !! (c `mod` length l)) as [x|] eqn:Hx; [|done].
  rewrite IH. symmetry. now apply delete_Permutation.
Qed.

Lemma shuffle_nil {A} (choices : list nat) : shuffle choices (@nil A) = [].
Proof. now destruct choices. Qed.

(** Every order of the entries is the result of some choices. *)
Lemma shuffle_complete {A} (l' : list A) :
  forall l, l ≡ₚ l' -> exists choices, shuffle choices l = l'.
Proof.
  induction l' as [|x l' IH]; intros l Hperm.
  - apply Permutation_nil_r in Hperm. subst. now exists [].
  - assert (x ∈ l) as Hin by (rewrite Hperm; left).
    apply list_elem_of_lookup in Hin as [i Hi].
    assert (i < length l) as Hlt by (eapply lookup_lt_Some; eauto).
    destruct (IH (delete i l)) as [choices Hch].
    { apply (Permutation_cons_inv (a := x)).
      rewrite <- Hperm. symmetry. now apply delete_Permutation. }
    exists (i :: choices). simpl.
    rewrite Nat.mod_small by done. now rewrite Hi, Hch.
Qed.

Section redisvector_properties.
Context `{Client} `{Runtime} `{Schemas}.

(** ** Upsert commands *)

(** The loop over the entries does not panic: it appends, for each entry in
    turn, the field name and the text of the value. *)
Lemma hmset_args_spec (entries : list (string * any)) :
  forall args, hmset_args entries args = Returns (args ++ fields_args entries).
Proof.
  induction entries as [|[key value] entries IH]; intros args; simpl.
  - now rewrite app_nil_r.
  - destruct value; simpl;
      rewrite ?float32VectorToString_bytes, ?float64VectorToString_bytes; simpl;
      rewrite IH, <- app_assoc; reflexivity.
Qed.

Lemma go_bind_Returns {A B} (m : Go A) (k : A -> Go B) (w w' : World) (a : A) :
  m w = Returns (a, w') -> go_bind m k w = k a w'.
Proof. unfold go_bind. now intros ->. Qed.

Lemma go_bind_Panics {A B} (m : Go A) (k : A -> Go B) (w : World) (msg : string) :
  m w = Panics msg -> go_bind m k w = Panics msg.
Proof. unfold go_bind. now intros ->. Qed.

Ltac go_unfold :=
  unfold go_bind, go_ret, go_lift, maprange, mapaccess, mapassign, uuid_New_String, Do, DoMulti.

(** The command of a document that is a map: its key carries the
    identifier chosen, its arguments are the fields in the order of the
    iteration, and the document holds the identifier under "id" afterwards.
    One draw is taken for the iteration, and one more for the fresh
    identifier when the document names none. *)
Lemma toHmsetCommand_spec (prefix : string) (doc : nat) (w : World)
    (d : gmap string any) :
  heap w !! doc = Some d ->
  let id := chosen_identifier d (uuid_String (S (draws w))) in
  toHmsetCommand prefix doc w =
    Returns
      (mkCommand ["HMSET"] [Sprintf_s_colon_s prefix id]
         (fields_args (shuffle (range_choices (draws w)) (map_to_list d))),
       mkWorld (<[doc := <["id" := id]> d]> (heap w))
         (match d !! "id", d !! "keys" with
          | None, None => S (S (draws w))
          | _, _ => S (draws w)
          end)
         (server w) (calls w)).
Proof.
  intros Hd id. subst id.
  unfold toHmsetCommand, chosen_identifier. go_unfold.
  destruct (d !! "id") as [idx|] eqn:Hid;
    [|destruct (d !! "keys") as [keys|] eqn:Hkeys];
    do 6 (simpl; rewrite ?Hd, ?Hid, ?Hkeys, ?hmset_args_spec);
    [|reflexivity..].
  now rewrite (insert_id d "id" idx Hid), (insert_id (heap w) doc d Hd).
Qed.

(** A nil map can be read, not written: the command of a nil document
    cannot be built. *)
Lemma toHmsetCommand_nil (prefix : string) (doc : nat) (w : World) :
  heap w !! doc = None ->
  toHmsetCommand prefix doc w = Panics "assignment to entry in nil map".
Proof.
  intros Hd.
  unfold toHmsetCommand. go_unfold.
  do 6 (simpl; rewrite ?Hd, ?map_to_list_empty, ?shuffle_nil).
  reflexivity.
Qed.
Lemma InsertWithHash_spec (index : string) (doc : nat) (w : World)
    (d : gmap string any) :
  heap w !! doc = Some d ->
  exists cmd w1,
    toHmsetCommand index doc w = Returns (cmd, w1)
    ∧ Keys cmd = [Sprintf_s_colon_s index (chosen_identifier d (uuid_String (S (draws w))))]
    ∧ InsertWithHash index doc w =
        Returns
          ((Sprintf_s_colon_s index (chosen_identifier d (uuid_String (S (draws w)))),
            Error (snd (client_Do (server w) (Arbitrary_Build cmd)))),
           mkWorld (heap w1) (draws w1)
             (fst (client_Do (server w) (Arbitrary_Build cmd)))
             (calls w ++ [CallDo (Arbitrary_Build cmd)])).
Proof.
  intros Hd. pose proof (toHmsetCommand_spec index doc w d Hd) as Hcmd.
  simpl in Hcmd. eexists _, _. split; [exact Hcmd |]. split; [reflexivity |].
  unfold InsertWithHash, go_bind. rewrite Hcmd. simpl.
  unfold Do. simpl. now destruct (client_Do _ _).
Qed.


End redisvector_properties.

Section batch_properties.
Context `{Client} `{Runtime} `{Schemas}.

(** ** Batched upserts *)

Lemma id_assigned_refl (d : gmap string any) : id_assigned d d.
Proof. unfold id_assigned. destruct (d !! "id"); [done | now left]. Qed.

Lemma id_assigned_with_id (d d' : gmap string any) (v : any) :
  d !! "id" = Some v -> id_assigned d d' -> d' = d.
Proof. unfold id_assigned. now intros ->. Qed.

Lemma id_assigned_trans (d1 d2 d3 : gmap string any) :
  id_assigned d1 d2 -> id_assigned d2 d3 -> id_assigned d1 d3.
Proof.
  intros H12 H23. unfold id_assigned in H12 |- *.
  destruct (d1 !! "id") as [v|] eqn:Hid.
  - subst d2. now rewrite (id_assigned_with_id d1 d3 v Hid H23).
  - destruct H12 as [-> | H12].
    + unfold id_assigned in H23. now rewrite Hid in H23.
    + right. destruct (d1 !! "keys") as [keys|].
      * subst d2. apply (id_assigned_with_id _ d3 keys) in H23 as ->; [done |].
        apply lookup_insert_eq.
      * destruct H12 as [n ->]. exists n.
        apply (id_assigned_with_id _ d3 (AString (uuid_String n))) in H23 as ->;
          [done |]. apply lookup_insert_eq.
Qed.

Lemma heap_evolves_refl (h : gmap nat (gmap string any)) : heap_evolves h h.
Proof.
  intros l. destruct (h !! l) as [d|] eqn:Hl; [|done].
  exists d. split; [done | apply id_assigned_refl].
Qed.

Lemma heap_evolves_trans (h1 h2 h3 : gmap nat (gmap string any)) :
  heap_evolves h1 h2 -> heap_evolves h2 h3 -> heap_evolves h1 h3.
Proof.
  intros H12 H23 l. specialize (H12 l). specialize (H23 l).
  destruct (h1 !! l) as [d1|].
  - destruct H12 as (d2 & Hd2 & Ha). rewrite Hd2 in H23.
    destruct H23 as (d3 & Hd3 & Hb). exists d3. split; [done |].
    now apply (id_assigned_trans d1 d2 d3).
  - now rewrite H12 in H23.
Qed.

(** One command lets the heap evolve. *)
Lemma chosen_identifier_evolves (doc : nat) (d : gmap string any) (n : nat)
    (h : gmap nat (gmap string any)) :
  h !! doc = Some d ->
  heap_evolves h (<[doc := <["id" := chosen_identifier d (uuid_String n)]> d]> h).
Proof.
  intros Hd l. destruct (decide (l = doc)) as [-> | Hne].
  - rewrite Hd, lookup_insert_eq. eexists. split; [reflexivity |].
    unfold id_assigned, chosen_identifier.
    destruct (d !! "id") as [v|] eqn:Hid; [now apply insert_id |].
    right. destruct (d !! "keys"); [done | now exists n].
  - rewrite lookup_insert_ne by done.
    destruct (h !! l) as [d'|]; [|done].
    exists d'. split; [done | apply id_assigned_refl].
Qed.

(** The first loop: one command and one key per document, in order; each
    document ends with the identifier of its key under "id". *)
Lemma build_commands_spec (index : string) (docs : list nat) :
  forall (w : World) (commands : list Completed) (docIDs : list string),
    Forall (fun doc => is_Some (heap w !! doc)) docs ->
    exists cmds ids w1,
      build_commands index docs commands docIDs w
      = Returns ((commands ++ cmds, docIDs ++ ids), w1)
      ∧ length cmds = length docs
      ∧ length ids = length docs
      ∧ server w1 = server w
      ∧ calls w1 = calls w
      ∧ heap_evolves (heap w) (heap w1)
      ∧ (forall other, other ∉ docs -> heap w1 !! other = heap w !! other)
      ∧ (forall i doc, docs !! i = Some doc ->
           exists d1 idv args,
             heap w1 !! doc = Some d1
             ∧ d1 !! "id" = Some idv
             ∧ ids !! i = Some (Sprintf_s_colon_s index idv)
             ∧ cmds !! i = Some ("HMSET" :: Sprintf_s_colon_s index idv :: args)).
Proof.
  induction docs as [|doc docs IH]; intros w commands docIDs Hlive.
  - exists [], [], w. simpl. unfold go_ret. rewrite !app_nil_r.
    repeat split; try done. apply heap_evolves_refl.
  - apply Forall_cons in Hlive as [[d Hd] Hlive].
    pose proof (toHmsetCommand_spec index doc w d Hd) as Hcmd. simpl in Hcmd.
    set (id := chosen_identifier d (uuid_String (S (draws w)))) in *.
    set (w' := mkWorld (<[doc := <["id" := id]> d]> (heap w))
                 (match d !! "id", d !! "keys" with
                  | None, None => S (S (draws w))
                  | _, _ => S (draws w)
                  end) (server w) (calls w)) in *.
    set (args := fields_args (shuffle (range_choices (draws w)) (map_to_list d))) in *.
    assert (Forall (fun doc0 => is_Some (heap w' !! doc0)) docs) as Hlive'.
    { eapply Forall_impl; [exact Hlive |]. intros l Hl. simpl.
      destruct (decide (l = doc)) as [-> | Hne];
        [rewrite lookup_insert_eq; eauto | now rewrite lookup_insert_ne]. }
    destruct (IH w' (commands ++ [Arbitrary_Build (mkCommand ["HMSET"]
                [Sprintf_s_colon_s index id] args)])
                (docIDs ++ [Sprintf_s_colon_s index id]) Hlive')
      as (cmds & ids & w1 & Hrun & Hlc & Hli & Hsrv & Hcalls & Hev & Hframe & Hidx).
    exists (Arbitrary_Build (mkCommand ["HMSET"] [Sprintf_s_colon_s index id] args)
            :: cmds), (Sprintf_s_colon_s index id :: ids), w1.
    split; [|split; [|split; [|split; [|split; [|split; [|split]]]]]].
    + cbn [build_commands].
      rewrite (go_bind_Returns _ _ _ _ _ Hcmd).
      erewrite go_bind_Returns by reflexivity.
      rewrite Hrun. now rewrite <- !app_assoc.
    + simpl. now rewrite Hlc.
    + simpl. now rewrite Hli.
    + now rewrite Hsrv.
    + now rewrite Hcalls.
    + eapply heap_evolves_trans; [|exact Hev].
      apply (chosen_identifier_evolves doc d (S (draws w)) (heap w) Hd).
    + intros other Hother. apply not_elem_of_cons in Hother as [Hne Hother].
      rewrite (Hframe other Hother). simpl. now rewrite lookup_insert_ne.
    + intros [|i] l Hl; simpl in Hl.
      * injection Hl as <-.
        specialize (Hev doc). simpl in Hev. rewrite lookup_insert_eq in Hev.
        destruct Hev as (d1 & Hd1 & Hassigned).
        apply (id_assigned_with_id _ d1 id) in Hassigned;
          [|apply lookup_insert_eq]. subst d1.
        exists (<["id" := id]> d), id, args.
        split; [done |]. split; [apply lookup_insert_eq |]. done.
      * apply (Hidx i l Hl).
Qed.

(** The arguments of the commands of the first loop: the command of a
    document serializes the fields the document has when its turn comes,
    those it had on entry at its first place in the list, and those it has
    in the end at a later place, where it holds its "id". *)
Lemma build_commands_fields (index : string) (docs : list nat) :
  forall (w : World) (commands : list Completed) (docIDs : list string),
    Forall (fun doc => is_Some (heap w !! doc)) docs ->
    exists cmds ids w1,
      build_commands index docs commands docIDs w
      = Returns ((commands ++ cmds, docIDs ++ ids), w1)
      ∧ (forall i doc d, docs !! i = Some doc -> heap w !! doc = Some d ->
           exists key entries,
             cmds !! i = Some ("HMSET" :: key :: fields_args entries)
             ∧ (doc ∉ take i docs -> entries ≡ₚ map_to_list d)
             ∧ (doc ∈ take i docs ->
                exists d1, heap w1 !! doc = Some d1 ∧ entries ≡ₚ map_to_list d1)).
Proof.
  induction docs as [|doc0 docs IH]; intros w commands docIDs Hlive.
  - exists [], [], w. simpl. unfold go_ret. rewrite !app_nil_r. split; [done |].
    intros i doc d Hi. now rewrite lookup_nil in Hi.
  - apply Forall_cons in Hlive as [[d0 Hd0] Hlive].
    pose proof (toHmsetCommand_spec index doc0 w d0 Hd0) as Hcmd. simpl in Hcmd.
    set (id := chosen_identifier d0 (uuid_String (S (draws w)))) in *.
    set (args := fields_args (shuffle (range_choices (draws w)) (map_to_list d0))) in *.
    match type of Hcmd with _ = Returns (_, ?w0) => set (w' := w0) in * end.
    assert (heap w' !! doc0 = Some (<["id" := id]> d0)) as Hd0'
      by (simpl; apply lookup_insert_eq).
    assert (forall l, l ≠ doc0 -> heap w' !! l = heap w !! l) as Hframe
      by (intros l Hne; simpl; now rewrite lookup_insert_ne).
    assert (Forall (fun doc => is_Some (heap w' !! doc)) docs) as Hlive'.
    { eapply Forall_impl; [exact Hlive |]. intros l Hl.
      destruct (decide (l = doc0)) as [-> | Hne]; [rewrite Hd0'; eauto |].
      now rewrite Hframe. }
    destruct (IH w' (commands ++ [Arbitrary_Build (mkCommand ["HMSET"]
                [Sprintf_s_colon_s index id] args)])
                (docIDs ++ [Sprintf_s_colon_s index id]) Hlive')
      as (cmds & ids & w1 & Hrun & Hfields).
    destruct (build_commands_spec index docs w' (commands ++ [Arbitrary_Build
                (mkCommand ["HMSET"] [Sprintf_s_colon_s index id] args)])
                (docIDs ++ [Sprintf_s_colon_s index id]) Hlive')
      as (cmds2 & ids2 & w2 & Hrun2 & _ & _ & _ & _ & Hev & _).
    assert (w2 = w1) as -> by congruence.
    exists (Arbitrary_Build (mkCommand ["HMSET"] [Sprintf_s_colon_s index id] args)
            :: cmds), (Sprintf_s_colon_s index id :: ids), w1.
    split.
    { cbn [build_commands].
      rewrite (go_bind_Returns _ _ _ _ _ Hcmd).
      erewrite go_bind_Returns by reflexivity.
      rewrite Hrun. now rewrite <- !app_assoc. }
    intros [|i] doc d Hi Hd; simpl in Hi.
    + injection Hi as <-. rewrite Hd0 in Hd. injection Hd as <-.
      exists (Sprintf_s_colon_s index id),
        (shuffle (range_choices (draws w)) (map_to_list d0)).
      split; [reflexivity |]. split; [intros _; apply shuffle_Permutation |].
      intros Hin. now apply elem_of_nil in Hin.
    + destruct (decide (doc = doc0)) as [-> | Hne].
      * rewrite Hd0 in Hd. injection Hd as <-.
        destruct (Hfields i doc0 _ Hi Hd0') as (key & entries & Hc & Hfirst & Hrepeated).
        exists key, entries. split; [exact Hc |]. split.
        { intros Hnot. exfalso. apply Hnot. simpl. left. }
        intros _. destruct (decide (doc0 ∈ take i docs)) as [Hin | Hnot];
          [now apply Hrepeated |].
        exists (<["id" := id]> d0). split; [|now apply Hfirst].
        specialize (Hev doc0). rewrite Hd0' in Hev.
        destruct Hev as (d1 & Hd1 & Hassigned).
        apply (id_assigned_with_id _ d1 id) in Hassigned; [|apply lookup_insert_eq].
        now subst d1.
      * assert (heap w' !! doc = Some d) as Hd' by now rewrite Hframe.
        destruct (Hfields i doc d Hi Hd') as (key & entries & Hc & Hfirst & Hrepeated).
        exists key, entries. split; [exact Hc |]. simpl. split.
        { intros Hnot. apply Hfirst. intros Hin. apply Hnot. now right. }
        intros Hin. apply Hrepeated.
        apply elem_of_cons in Hin as [Heq | Hin]; [done | exact Hin].
Qed.

(** The second loop keeps the errors of the replies, in order. *)
Lemma collect_errors_spec (result : list RedisResult) :
  forall errs, collect_errors result errs = errs ++ (Some <$> omap Error result).
Proof.
  induction result as [|res result IH]; intros errs; simpl.
  - now rewrite app_nil_r.
  - destruct (Error res) as [e|]; [|apply IH].
    rewrite IH. now rewrite <- app_assoc.
Qed.

Lemma omap_id_Some (es : list error) : omap id (Some <$> es) = es.
Proof. induction es as [|e es IH]; simpl; [done | f_equal; exact IH]. Qed.

Lemma omap_id_fmap (result : list RedisResult) :
  omap id (Error <$> result) = omap Error result.
Proof.
  induction result as [|res result IH]; simpl; [done |].
  destruct (Error res); simpl; [f_equal |]; exact IH.
Qed.

Lemma errors_Join_collect (result : list RedisResult) :
  errors_Join (collect_errors result []) = errors_Join (Error <$> result).
Proof.
  unfold errors_Join. rewrite collect_errors_spec. simpl.
  now rewrite omap_id_Some, omap_id_fmap.
Qed.

(** The combined error is nil exactly when no reply carries an error. *)
Lemma errors_Join_None (result : list RedisResult) :
  errors_Join (Error <$> result) = None
  <-> Forall (fun res => Error res = None) result.
Proof.
  unfold errors_Join. rewrite omap_id_fmap. split.
  - intros Hnil. apply Forall_forall. intros res Hin.
    destruct (Error res) as [e|] eqn:He; [|done].
    assert (e ∈ omap Error result) as Hmem
      by (apply list_elem_of_omap; eauto).
    destruct (omap Error result); [inversion Hmem | discriminate].
  - intros Hall. assert (omap Error result = []) as ->; [|done].
    induction Hall as [|res result Hres _ IH]; simpl; [done |].
    now rewrite Hres.
Qed.

(** The combined error wraps the errors of the replies, all of them and
    nothing else. *)
Lemma errors_Join_members (result : list RedisResult) (e : error) :
  (exists res, res ∈ result ∧ Error res = Some e)
  <-> exists es, errors_Join (Error <$> result) = Some (JoinError es) ∧ e ∈ es.
Proof.
  unfold errors_Join. rewrite omap_id_fmap. split.
  - intros (res & Hin & He).
    assert (e ∈ omap Error result) as Hmem by (apply list_elem_of_omap; eauto).
    destruct (omap Error result) as [|e0 es] eqn:Hes; [inversion Hmem |].
    now exists (e0 :: es).
  - intros (es & Hjoin & Hmem).
    destruct (omap Error result) as [|e0 es'] eqn:Hes; [discriminate |].
    injection Hjoin as <-. rewrite <- Hes in Hmem.
    apply list_elem_of_omap in Hmem as (res & Hin & He). eauto.
Qed.

Lemma InsertManyWithHash_spec (index : string) (docs : list nat) (w w1 : World)
    (cmds : list Completed) (ids : list string) :
  build_commands index docs [] [] w = Returns ((cmds, ids), w1) ->
  InsertManyWithHash index docs w
  = Returns
      ((ids, errors_Join (Error <$> snd (client_DoMulti (server w1) cmds))),
       mkWorld (heap w1) (draws w1) (fst (client_DoMulti (server w1) cmds))
         (calls w1 ++ [CallDoMulti cmds])).
Proof.
  intros Hrun.
  unfold InsertManyWithHash. rewrite (go_bind_Returns _ _ _ _ _ Hrun).
  unfold go_bind, DoMulti, go_ret.
  destruct (client_DoMulti (server w1) cmds) as [s' rs]. simpl.
  now rewrite errors_Join_collect.
Qed.

(** The identifier a document ends with, against the document as it was. *)
Lemma assigned_identifier (d d1 : gmap string any) (idv : any) :
  id_assigned d d1 -> d1 !! "id" = Some idv ->
  d1 = <["id" := idv]> d
  ∧ match d !! "id", d !! "keys" with
    | Some v, _ => idv = v
    | None, Some v => idv = v
    | None, None => exists n, idv = AString (uuid_String n)
    end.
Proof.
  unfold id_assigned. intros Hassigned Hid1.
  destruct (d !! "id") as [v|] eqn:Hid.
  - subst d1. rewrite Hid in Hid1. injection Hid1 as ->.
    split; [symmetry; now apply insert_id | done].
  - destruct Hassigned as [-> | Hassigned]; [congruence |].
    destruct (d !! "keys") as [keys|].
    + subst d1. rewrite lookup_insert_eq in Hid1. injection Hid1 as ->. done.
    + destruct Hassigned as [n ->]. rewrite lookup_insert_eq in Hid1.
      injection Hid1 as <-. split; [done | now exists n].
Qed.

End batch_properties.

Section upsert_theorems.
Context `{Client} `{Runtime} `{Schemas}.

(** C1, as amended. For documents that are maps (not nil),
    [InsertManyWithHash] returns one entry per document, in the order of the
    input: the storage key, that is the index name, a colon and the
    identifier chosen for the document (its "id", else its "keys", else a
    fresh identifier) as the verb [%s] prints it, the identifier itself when
    it is a string; the document holds the identifier under "id"
    afterwards. It builds one HMSET command per document, on that key, with
    the fields the document has when its turn comes (those it had on entry
    at its first place in the list, and those with its "id" at a later
    place), and submits the commands in one batch, all of them whatever the
    replies. The error returned wraps the errors of all replies, and is nil
    exactly when no reply carries an error. *)
Theorem C1_InsertManyWithHash_keys_batch_and_joined_error
    (index : string) (docs : list nat) (w : World) :
  Forall (fun doc => is_Some (heap w !! doc)) docs ->
  exists cmds ids err w',
    InsertManyWithHash index docs w = Returns ((ids, err), w')
    ∧ length ids = length docs
    ∧ length cmds = length docs
    ∧ (forall i doc d, docs !! i = Some doc -> heap w !! doc = Some d ->
         exists idv entries,
           ids !! i = Some (index +:+ ":" +:+ Sprintf_s idv)
           ∧ cmds !! i
             = Some ("HMSET" :: (index +:+ ":" +:+ Sprintf_s idv) :: fields_args entries)
           ∧ entries ≡ₚ map_to_list (if bool_decide (doc ∈ take i docs)
                                     then <["id" := idv]> d else d)
           ∧ heap w' !! doc = Some (<["id" := idv]> d)
           ∧ match d !! "id", d !! "keys" with
             | Some v, _ => idv = v
             | None, Some v => idv = v
             | None, None => exists n, idv = AString (uuid_String n)
             end
           ∧ (forall s, idv = AString s -> ids !! i = Some (index +:+ ":" +:+ s)))
    ∧ calls w' = calls w ++ [CallDoMulti cmds]
    ∧ server w' = fst (client_DoMulti (server w) cmds)
    ∧ err = errors_Join (Error <$> snd (client_DoMulti (server w) cmds))
    ∧ (err = None
       <-> Forall (fun res => Error res = None) (snd (client_DoMulti (server w) cmds)))
    ∧ (forall e,
         (exists res, res ∈ snd (client_DoMulti (server w) cmds) ∧ Error res = Some e)
         <-> exists es, err = Some (JoinError es) ∧ e ∈ es).
Proof.
  intros Hlive.
  destruct (build_commands_spec index docs w [] [] Hlive)
    as (cmds & ids & w1 & Hrun & Hlc & Hli & Hsrv & Hcalls & Hev & _ & Hidx).
  destruct (build_commands_fields index docs w [] [] Hlive)
    as (cmds' & ids' & w1' & Hrun' & Hfields).
  rewrite Hrun in Hrun'. injection Hrun' as <- _ <-.
  simpl in Hrun.
  pose proof (InsertManyWithHash_spec index docs w w1 cmds ids Hrun) as Hmany.
  rewrite Hsrv, Hcalls in Hmany.
  eexists cmds, ids, _, _. split; [exact Hmany |].
  split; [exact Hli |]. split; [exact Hlc |].
  split; [|split; [done |]; split; [done |]; split; [done |]; split].
  - intros i doc d Hi Hd. cbn [heap].
    destruct (Hidx i doc Hi) as (d1 & idv & args & Hd1 & Hid1 & Hkey & Hcmd).
    specialize (Hev doc). rewrite Hd in Hev.
    destruct Hev as (d' & Hd' & Hassigned).
    rewrite Hd1 in Hd'. injection Hd' as <-.
    destruct (assigned_identifier d d1 idv Hassigned Hid1) as [-> Hprio].
    destruct (Hfields i doc d Hi Hd) as (key & entries & Hcmd' & Hfirst & Hrepeated).
    rewrite Hcmd in Hcmd'. injection Hcmd' as _ ->.
    exists idv, entries. split; [exact Hkey |]. split; [exact Hcmd |].
    split; [|split; [exact Hd1 |]; split; [exact Hprio |]].
    + case_bool_decide as Hin; [|now apply Hfirst].
      destruct (Hrepeated Hin) as (d2 & Hd2 & Hperm).
      rewrite Hd1 in Hd2. now injection Hd2 as <-.
    + intros s ->. exact Hkey.
  - apply errors_Join_None.
  - apply errors_Join_members.
Qed.

(** C8, as amended. The command of an upsert has the key made of the
    index name, a colon and the identifier chosen as the verb [%s] prints
    it, the identifier itself when it is a string. It serializes the fields
    the document had on entry, each as its name followed by the text of its
    value, and nothing else. The identifier is among them under "id" exactly
    when the document came with an "id" field; an identifier taken from
    "keys" or generated is not serialized under "id": the key of the command
    carries it, and the document receives it after the arguments are built. *)
Theorem C8_upsert_serializes_the_fields_on_entry
    (index : string) (doc : nat) (w : World) (d : gmap string any) :
  heap w !! doc = Some d ->
  exists entries cmd w1,
    toHmsetCommand index doc w = Returns (cmd, w1)
    ∧ entries ≡ₚ map_to_list d
    ∧ Args cmd = fields_args entries
    ∧ Keys cmd
      = [index +:+ ":" +:+ Sprintf_s (chosen_identifier d (uuid_String (S (draws w))))]
    ∧ (forall v, d !! "id" = Some v ->
         exists before after, Args cmd = before ++ ["id"; field_text v] ++ after)
    ∧ (d !! "id" = None -> forall kv, kv ∈ entries -> fst kv ≠ "id")
    ∧ heap w1 !! doc
      = Some (<["id" := chosen_identifier d (uuid_String (S (draws w)))]> d)
    ∧ (forall s, chosen_identifier d (uuid_String (S (draws w))) = AString s ->
         Keys cmd = [index +:+ ":" +:+ s])
    ∧ (d !! "id" = None -> d !! "keys" = None ->
       Keys cmd = [index +:+ ":" +:+ uuid_String (S (draws w))]).
Proof.
  intros Hd.
  pose proof (toHmsetCommand_spec index doc w d Hd) as Hcmd. simpl in Hcmd.
  exists (shuffle (range_choices (draws w)) (map_to_list d)).
  eexists _, _. split; [exact Hcmd |]. simpl.
  split; [apply shuffle_Permutation |].
  split; [done |]. split; [done |]. split; [|split; [|split; [|split]]].
  - intros v Hid.
    assert (("id", v) ∈ shuffle (range_choices (draws w)) (map_to_list d)) as Hin.
    { rewrite shuffle_Permutation. now apply elem_of_map_to_list. }
    apply list_elem_of_split in Hin as (l1 & l2 & ->).
    exists (fields_args l1), (fields_args l2).
    unfold fields_args. now rewrite flat_map_app.
  - intros Hid [k v] Hin Hk. simpl in Hk. subst k.
    rewrite shuffle_Permutation in Hin.
    apply elem_of_map_to_list in Hin. congruence.
  - apply lookup_insert_eq.
  - now intros s ->.
  - intros Hid Hkeys. unfold chosen_identifier. now rewrite Hid, Hkeys.
Qed.

(** C9. An upsert of a document without "id" stores the identifier in the
    document itself, under "id": the value of "keys" when there is one, else
    the fresh identifier; a document that has an "id" is left as it is, and
    so is every other document. The same holds for each document of a
    batch. *)
Theorem C9_document_gains_id_in_place (index : string) (doc : nat) (w : World)
    (d : gmap string any) :
  heap w !! doc = Some d ->
  (exists cmd w1 r w2,
     toHmsetCommand index doc w = Returns (cmd, w1)
     ∧ InsertWithHash index doc w = Returns (r, w2)
     ∧ heap w2 = heap w1
     ∧ (d !! "id" = None ->
        heap w1 !! doc =
          Some (<["id" := match d !! "keys" with
                          | Some keys => keys
                          | None => AString (uuid_String (S (draws w)))
                          end]> d))
     ∧ (is_Some (d !! "id") -> heap w1 = heap w)
     ∧ (forall other, other ≠ doc -> heap w1 !! other = heap w !! other))
  ∧ (forall docs, Forall (fun doc' => is_Some (heap w !! doc')) docs ->
     exists r w3,
       InsertManyWithHash index docs w = Returns (r, w3)
       ∧ (forall doc' d', heap w !! doc' = Some d' ->
            (is_Some (d' !! "id") -> heap w3 !! doc' = Some d')
            ∧ (doc' ∉ docs -> heap w3 !! doc' = Some d')
            ∧ (d' !! "id" = None -> doc' ∈ docs ->
               exists idv,
                 heap w3 !! doc' = Some (<["id" := idv]> d')
                 ∧ match d' !! "keys" with
                   | Some keys => idv = keys
                   | None => exists n, idv = AString (uuid_String n)
                   end))).
Proof.
  intros Hd. split.
  - destruct (InsertWithHash_spec index doc w d Hd) as (cmd & w1 & Hcmd & _ & Hins).
    pose proof (toHmsetCommand_spec index doc w d Hd) as Hspec. simpl in Hspec.
    rewrite Hspec in Hcmd. injection Hcmd as <- <-.
    eexists _, _, _, _. split; [exact Hspec |]. split; [exact Hins |].
    simpl. repeat split.
    + intros Hid. rewrite lookup_insert_eq. unfold chosen_identifier. now rewrite Hid.
    + intros [v Hid]. unfold chosen_identifier. rewrite Hid.
      now rewrite (insert_id d "id" v Hid), (insert_id (heap w) doc d Hd).
    + intros other Hne. now rewrite lookup_insert_ne.
  - intros docs Hlive.
    destruct (build_commands_spec index docs w [] [] Hlive)
      as (cmds & ids & w1 & Hrun & _ & _ & _ & _ & Hev & Hframe & Hidx).
    simpl in Hrun.
    pose proof (InsertManyWithHash_spec index docs w w1 cmds ids Hrun) as Hmany.
    eexists _, _. split; [exact Hmany |]. simpl.
    intros doc' d' Hd'. split; [|split].
    + intros [v Hid]. specialize (Hev doc'). rewrite Hd' in Hev.
      destruct Hev as (d1 & Hd1 & Hassigned).
      now rewrite Hd1, (id_assigned_with_id d' d1 v Hid Hassigned).
    + intros Hout. now rewrite (Hframe doc' Hout).
    + intros Hid Hin. apply list_elem_of_lookup in Hin as [i Hi].
      destruct (Hidx i doc' Hi) as (d1 & idv & args & Hd1 & Hid1 & _).
      specialize (Hev doc'). rewrite Hd' in Hev.
      destruct Hev as (d1' & Hd1' & Hassigned).
      rewrite Hd1 in Hd1'. injection Hd1' as <-.
      destruct (assigned_identifier d' d1 idv Hassigned Hid1) as [-> Hprio].
      rewrite Hid in Hprio. exists idv. split; [done |].
      now destruct (d' !! "keys").
Qed.

End upsert_theorems.

Section search_properties.
Context `{Client} `{Runtime} `{Schemas}.

(** ** Conversion of search rows *)

(** A field name the loop does not meet keeps what the mapping held under
    it; for "score" this needs that the loop does not meet "distance". *)
Lemma convert_fields_other (fields : list (string * string)) :
  forall (docMap : gmap string any) (k : string),
    k ∉ fields.*1 ->
    (k = "score" -> "distance" ∉ fields.*1) ->
    convert_fields fields docMap !! k = docMap !! k.
Proof.
  induction fields as [|[k0 f0] fields IH]; intros docMap k Hk Hscore; [done |].
  simpl in *. apply not_elem_of_cons in Hk as [Hne Hk].
  destruct (decide (k0 = "distance")) as [-> | Hk0].
  - assert (k ≠ "score") as Hns.
    { intros ->. apply (Hscore eq_refl). left. }
    rewrite IH by (done || intros ->; done). now rewrite lookup_insert_ne.
  - rewrite IH; [now rewrite lookup_insert_ne | done |].
    intros ->. specialize (Hscore eq_refl).
    now apply not_elem_of_cons in Hscore as [_ ?].
Qed.

(** A field other than "distance" and "score" passes under its own name. *)
Lemma convert_fields_passed (fields : list (string * string)) :
  forall (docMap : gmap string any) (k field : string),
    NoDup fields.*1 -> (k, field) ∈ fields ->
    k ≠ "distance" -> k ≠ "score" ->
    convert_fields fields docMap !! k = Some (AString field).
Proof.
  induction fields as [|[k0 f0] fields IH];
    intros docMap k field Hnodup Hin Hnd Hns; [inversion Hin |].
  simpl in *. apply NoDup_cons in Hnodup as [Hfresh Hnodup].
  apply elem_of_cons in Hin as [Heq | Hin].
  - injection Heq as <- <-. rewrite decide_False by done.
    rewrite convert_fields_other by done. apply lookup_insert_eq.
  - destruct (decide (k0 = "distance")); now apply IH.
Qed.

(** The field "distance" arrives under "score", parsed, when no field of
    the row is named "score". *)
Lemma convert_fields_score (fields : list (string * string)) :
  forall (docMap : gmap string any) (field : string),
    NoDup fields.*1 -> "score" ∉ fields.*1 -> ("distance", field) ∈ fields ->
    convert_fields fields docMap !! "score"
    = Some (AFloat32 (float32_of_float64 (fst (ParseFloat field 32)))).
Proof.
  induction fields as [|[k0 f0] fields IH];
    intros docMap field Hnodup Hscore Hin; [inversion Hin |].
  simpl in *. apply NoDup_cons in Hnodup as [Hfresh Hnodup].
  apply not_elem_of_cons in Hscore as [Hne Hscore].
  apply elem_of_cons in Hin as [Heq | Hin].
  - injection Heq as <- <-. rewrite decide_True by done.
    rewrite convert_fields_other by done. apply lookup_insert_eq.
  - destruct (decide (k0 = "distance")); now apply IH.
Qed.

(** A field "score" passes under its own name when no field of the row is
    named "distance"; any other field but "distance" passes in any case. *)
Lemma convert_fields_passed_score (fields : list (string * string)) :
  forall (docMap : gmap string any) (k field : string),
    NoDup fields.*1 -> (k, field) ∈ fields ->
    k ≠ "distance" -> (k = "score" -> "distance" ∉ fields.*1) ->
    convert_fields fields docMap !! k = Some (AString field).
Proof.
  induction fields as [|[k0 f0] fields IH];
    intros docMap k field Hnodup Hin Hnd Hns; [inversion Hin |].
  simpl in *. apply NoDup_cons in Hnodup as [Hfresh Hnodup].
  assert (k = "score" -> k0 ≠ "distance" ∧ "distance" ∉ fields.*1) as Hns'.
  { intros Hk. specialize (Hns Hk). apply not_elem_of_cons in Hns as [Hne Hns].
    split; [now apply not_eq_sym | exact Hns]. }
  apply elem_of_cons in Hin as [Heq | Hin].
  - injection Heq as <- <-. rewrite decide_False by done.
    rewrite convert_fields_other; [apply lookup_insert_eq | done |].
    intros Hk. now apply Hns'.
  - destruct (decide (k0 = "distance")) as [-> | Hk0].
    + apply IH; [done | done | done |]. intros Hk. now destruct (Hns' Hk).
    + apply IH; [done | done | done |]. intros Hk. now apply Hns'.
Qed.

(** The loop stores nothing under "distance". *)
Lemma convert_fields_never_distance (fields : list (string * string)) :
  forall docMap : gmap string any,
    convert_fields fields docMap !! "distance" = docMap !! "distance".
Proof.
  induction fields as [|[k field] fields IH]; intros docMap; simpl; [done |].
  destruct (decide (k = "distance")); rewrite IH; now rewrite lookup_insert_ne.
Qed.

(** The fields of a row in the order of one iteration. *)
Lemma row_fields (choices : list nat) (m : gmap string string) :
  NoDup (shuffle choices (map_to_list m)).*1
  ∧ (forall k v, (k, v) ∈ shuffle choices (map_to_list m) <-> m !! k = Some v)
  ∧ (forall k, k ∈ (shuffle choices (map_to_list m)).*1 <-> is_Some (m !! k)).
Proof.
  assert (forall k v, (k, v) ∈ shuffle choices (map_to_list m) <-> m !! k = Some v)
    as Hmem.
  { intros k v. rewrite shuffle_Permutation. apply elem_of_map_to_list. }
  split; [|split; [exact Hmem |]].
  - rewrite shuffle_Permutation. apply NoDup_fst_map_to_list.
  - intros k. rewrite list_elem_of_fmap. split.
    + intros ([k' v] & -> & Hin). apply Hmem in Hin. eauto.
    + intros [v Hv]. exists (k, v). split; [done | now apply Hmem].
Qed.

(** A row that does not hold both "distance" and "score" is converted as
    the document says, whatever the order of the iteration. *)
Lemma convert_doc_row_converted (choices : list nat) (doc : FtSearchDoc) :
  Doc doc !! "distance" = None ∨ Doc doc !! "score" = None ->
  row_converted doc (convert_doc choices doc).
Proof.
  intros Hnotboth.
  destruct (row_fields choices (Doc doc)) as (Hnodup & Hmem & Hkeys).
  set (fields := shuffle choices (map_to_list (Doc doc))) in *.
  assert (forall k field, k ≠ "distance" -> Doc doc !! k = Some field ->
            convert_fields fields ∅ !! k = Some (AString field)) as Hpass.
  { intros k field Hk Hfield.
    apply convert_fields_passed_score; [done | now apply Hmem | done |].
    intros ->. rewrite Hkeys. intros [v Hv].
    destruct Hnotboth as [Hnone | Hnone]; congruence. }
  assert (convert_doc choices doc !! "id"
          = match Doc doc !! "id" with
            | Some v => Some (AString v)
            | None => Some (AString (Key doc))
            end) as Hid.
  { unfold convert_doc. fold fields.
    destruct (Doc doc !! "id") as [v|] eqn:Hv.
    - now rewrite !(Hpass "id" v) by done.
    - rewrite (convert_fields_other fields ∅ "id").
      + rewrite lookup_empty. apply lookup_insert_eq.
      + rewrite Hkeys, Hv. now intros [? ?].
      + done. }
  assert (forall k, k ≠ "id" ->
            convert_doc choices doc !! k = convert_fields fields ∅ !! k) as Hother.
  { intros k Hk. unfold convert_doc. fold fields.
    destruct (convert_fields fields ∅ !! "id"); [done |].
    now rewrite lookup_insert_ne. }
  split; [|split; [|split]].
  - intros field Hd. rewrite Hother by done.
    apply convert_fields_score; [done | | now apply Hmem].
    rewrite Hkeys. intros [v Hv].
    destruct Hnotboth as [Hnone | Hnone]; congruence.
  - intros k field Hk Hfield. destruct (decide (k = "id")) as [-> | Hne].
    + rewrite Hid. now rewrite Hfield.
    + rewrite Hother by done. now apply Hpass.
  - intros Hnoid. rewrite Hid. now rewrite Hnoid.
  - rewrite Hother by done. rewrite convert_fields_never_distance. apply lookup_empty.
Qed.

(** A row that holds both "distance" and "score" is not converted as the
    document says, by no mapping: the parsed distance and the text of
    "score" would both be what "score" holds. *)
Lemma row_with_both_not_converted (doc : FtSearchDoc) (m : gmap string any) :
  is_Some (Doc doc !! "distance") -> is_Some (Doc doc !! "score") ->
  ~ row_converted doc m.
Proof.
  intros [field Hdist] [text Hscore] (Hsc & Hpass & _).
  specialize (Hsc field Hdist).
  specialize (Hpass "score" text ltac:(discriminate) Hscore).
  congruence.
Qed.

(** The outer loop converts the rows in order, each under the choices of
    its own iteration, and does not panic. *)
Lemma convert_loop_spec (docs : list FtSearchDoc) :
  forall (w : World) (result : list (gmap string any)),
    convert_loop docs result w
    = Returns
        (result ++ imap (fun i doc => convert_doc (range_choices (draws w + i)) doc) docs,
         mkWorld (heap w) (draws w + length docs) (server w) (calls w)).
Proof.
  induction docs as [|doc docs IH]; intros w result.
  - simpl. unfold go_ret. rewrite app_nil_r, Nat.add_0_r. now destruct w.
  - cbn [convert_loop]. rewrite IH. cbn [imap heap draws server calls length].
    rewrite Nat.add_0_r, <- app_assoc. cbn [app].
    replace (S (draws w) + length docs) with (draws w + S (length docs)) by lia.
    do 4 f_equal.
    apply imap_ext. intros i x _. simpl. do 2 f_equal. lia.
Qed.

Lemma convertFTSearchResIntoMapSchema_spec (docs : list FtSearchDoc) (w : World) :
  exists result,
    convertFTSearchResIntoMapSchema docs w
    = Returns (result, mkWorld (heap w) (draws w + length docs) (server w) (calls w))
    ∧ length result = length docs
    ∧ forall i doc, docs !! i = Some doc ->
        result !! i = Some (convert_doc (range_choices (draws w + i)) doc).
Proof.
  eexists. unfold convertFTSearchResIntoMapSchema. rewrite convert_loop_spec.
  split; [reflexivity |]. cbn [app]. split; [apply length_imap |].
  intros i doc Hi. rewrite list_lookup_imap, Hi. reflexivity.
Qed.

(** [Find] hands the rows of a well-formed reply to the conversion and
    returns its result with a nil error. *)
Lemma Find_spec (query : RedisVectorQuery) (w : World) (total : Z)
    (rows : list FtSearchDoc) :
  let cmd := Arbitrary_Build (RedisVectorQuery_ToCommand query) in
  AsFtSearch (snd (client_Do (server w) cmd)) = (total, rows, None) ->
  exists result w',
    Find query w = Returns ((total, Some result, None), w')
    ∧ length result = length rows
    ∧ forall i doc, rows !! i = Some doc ->
        result !! i = Some (convert_doc (range_choices (draws w + i)) doc).
Proof.
  intros cmd Hreply. unfold Find. fold cmd.
  unfold go_bind at 1. unfold Do.
  destruct (client_Do (server w) cmd) as [s' res]. simpl in Hreply.
  rewrite Hreply.
  set (w1 := mkWorld (heap w) (draws w) s' (calls w ++ [CallDo cmd])).
  destruct (convertFTSearchResIntoMapSchema_spec rows w1)
    as (result & Hconv & Hlen & Hrows).
  rewrite (go_bind_Returns _ _ _ _ _ Hconv). unfold go_ret.
  eexists result, _. split; [reflexivity |]. split; [done |]. exact Hrows.
Qed.

(** C5, as amended. The conversion returns one mapping per row, in order.
    For a row that does not hold both a field "distance" and a field
    "score": the field "distance" is renamed to "score", the mapping having
    under "score" the float32 its text is parsed to and nothing under
    "distance"; every other field passes unchanged under its own name; and
    a row without "id" gets its key under "id". A row that holds both is
    not converted in this way, under no order of iteration. In particular a
    row with distance "0.12" and no "id" (and no "score") yields the parsed
    float under "score" and the row key under "id". *)
Theorem C5_row_not_holding_distance_and_score_is_converted
    (docs : list FtSearchDoc) (w : World) :
  exists result w',
    convertFTSearchResIntoMapSchema docs w = Returns (result, w')
    ∧ length result = length docs
    ∧ (forall i doc, docs !! i = Some doc ->
         exists m, result !! i = Some m
           ∧ (row_converted doc m
              <-> Doc doc !! "distance" = None ∨ Doc doc !! "score" = None))
    ∧ (forall i doc, docs !! i = Some doc -> Doc doc !! "score" = None ->
         Doc doc !! "distance" = Some "0.12" -> Doc doc !! "id" = None ->
         exists m, result !! i = Some m
           ∧ m !! "score"
             = Some (AFloat32 (float32_of_float64 (fst (ParseFloat "0.12" 32))))
           ∧ m !! "id" = Some (AString (Key doc))
           ∧ m !! "distance" = None).
Proof.
  destruct (convertFTSearchResIntoMapSchema_spec docs w) as (result & Hconv & Hlen & Hrows).
  eexists result, _. split; [exact Hconv |]. split; [exact Hlen |]. split.
  - intros i doc Hi. eexists. split; [exact (Hrows i doc Hi) |]. split.
    + intros Hconverted.
      destruct (Doc doc !! "distance") as [field|] eqn:Hdist; [|now left].
      destruct (Doc doc !! "score") as [text|] eqn:Hscore; [|now right].
      exfalso. apply (row_with_both_not_converted doc _) in Hconverted; [done | |];
        rewrite ?Hdist, ?Hscore; eauto.
    + apply convert_doc_row_converted.
  - intros i doc Hi Hscore Hdist Hid. eexists. split; [exact (Hrows i doc Hi) |].
    destruct (convert_doc_row_converted (range_choices (draws w + i)) doc
                (or_intror Hscore))
      as (Hsc & _ & Hkey & Hnodist).
    split; [now apply Hsc |]. split; [now apply Hkey | exact Hnodist].
Qed.

(** C10, as amended. The conversion returns for every list of rows, and
    [Find] returns its result with a nil error whenever the reply is well
    formed. For a row that has no field named "score" and whose "distance"
    text is not well formed as a number, the parser's error is dropped and
    "score" is the float32 zero. *)
Theorem C10_malformed_distance_scores_zero (docs : list FtSearchDoc) (w : World) :
  (exists result w',
     convertFTSearchResIntoMapSchema docs w = Returns (result, w')
     ∧ length result = length docs
     ∧ forall i doc field, docs !! i = Some doc ->
         Doc doc !! "score" = None ->
         Doc doc !! "distance" = Some field ->
         atof field 32 = AtofSyntax ->
         ParseFloat field 32 = (0%Z, Some (NumError "ParseFloat" field ErrSyntax))
         ∧ exists m, result !! i = Some m ∧ m !! "score" = Some (AFloat32 0%Z))
  ∧ (forall query total,
       AsFtSearch (snd (client_Do (server w)
         (Arbitrary_Build (RedisVectorQuery_ToCommand query)))) = (total, docs, None) ->
       exists result w',
         Find query w = Returns ((total, Some result, None), w')
         ∧ length result = length docs).
Proof.
  split.
  - destruct (convertFTSearchResIntoMapSchema_spec docs w)
      as (result & Hconv & Hlen & Hrows).
    eexists result, _. split; [exact Hconv |]. split; [exact Hlen |].
    intros i doc field Hi Hscore Hdist Hsyntax.
    assert (ParseFloat field 32 = (0%Z, Some (NumError "ParseFloat" field ErrSyntax)))
      as Hparse by (unfold ParseFloat; now rewrite Hsyntax).
    split; [exact Hparse |].
    eexists. split; [exact (Hrows i doc Hi) |].
    destruct (convert_doc_row_converted (range_choices (draws w + i)) doc
                (or_intror Hscore))
      as (Hsc & _ & _).
    rewrite (Hsc field Hdist), Hparse. reflexivity.
  - intros query total Hreply.
    destruct (Find_spec query w total docs Hreply) as (result & w' & Hfind & Hlen & _).
    eauto.
Qed.

End search_properties.

Section index_properties.
Context `{Client} `{Runtime} `{Schemas}.

(** ** Index management *)

Lemma CheckIndexExists_spec (index : string) (w : World) :
  index ≠ "" ->
  CheckIndexExists index w
  = Returns
      (bool_decide (Error (snd (client_Do (server w) (FtInfo_Build index))) = None),
       mkWorld (heap w) (draws w) (fst (client_Do (server w) (FtInfo_Build index)))
         (calls w ++ [CallDo (FtInfo_Build index)])).
Proof.
  intros Hne. unfold CheckIndexExists. rewrite decide_False by done.
  unfold go_bind, Do, go_ret. now destruct (client_Do _ _).
Qed.

(** An index that the probe finds is not created again: the call returns
    nil after the probe, its only command. *)
Lemma CreateIndexIfNotExists_found (index : string) (schema : IndexSchema) (w : World) :
  index ≠ "" ->
  Error (snd (client_Do (server w) (FtInfo_Build index))) = None ->
  CreateIndexIfNotExists index schema w
  = Returns
      (None,
       mkWorld (heap w) (draws w) (fst (client_Do (server w) (FtInfo_Build index)))
         (calls w ++ [CallDo (FtInfo_Build index)])).
Proof.
  intros Hne Hfound. unfold CreateIndexIfNotExists. rewrite decide_False by done.
  rewrite (go_bind_Returns _ _ _ _ _ (CheckIndexExists_spec index w Hne)).
  now rewrite bool_decide_eq_true_2.
Qed.

(** An index that the probe does not find is created by one more command,
    whose error is the result. *)
Lemma CreateIndexIfNotExists_absent (index : string) (schema : IndexSchema) (w : World) :
  index ≠ "" ->
  Error (snd (client_Do (server w) (FtInfo_Build index))) ≠ None ->
  let s1 := fst (client_Do (server w) (FtInfo_Build index)) in
  CreateIndexIfNotExists index schema w
  = Returns
      (Error (snd (client_Do s1 (create_command index schema))),
       mkWorld (heap w) (draws w) (fst (client_Do s1 (create_command index schema)))
         (calls w ++ [CallDo (FtInfo_Build index); CallDo (create_command index schema)])).
Proof.
  intros Hne Habsent s1. unfold CreateIndexIfNotExists. rewrite decide_False by done.
  rewrite (go_bind_Returns _ _ _ _ _ (CheckIndexExists_spec index w Hne)).
  rewrite bool_decide_eq_false_2 by done.
  fold (create_command index schema). fold s1.
  unfold go_bind, Do, go_ret. simpl.
  destruct (client_Do s1 (create_command index schema)). simpl.
  now rewrite <- app_assoc.
Qed.

(** C6. For a non-empty index name, [CreateIndexIfNotExists] first probes
    for the index; when the probe finds it, the call returns nil and sends
    no creation command. Over a store where the probe changes nothing, a
    created index is found by the next probe, and a refused creation changes
    nothing, a second call with the same name and schema leaves the store as
    the first call left it. *)
Theorem C6_CreateIndexIfNotExists_probes_first_and_is_idempotent
    (index : string) (schema : IndexSchema) (w : World) :
  (forall s i, fst (client_Do s (FtInfo_Build i)) = s) ->
  (forall s,
     Error (snd (client_Do s (create_command index schema))) = None ->
     Error (snd (client_Do (fst (client_Do s (create_command index schema)))
                   (FtInfo_Build index))) = None) ->
  (forall s,
     Error (snd (client_Do s (create_command index schema))) ≠ None ->
     fst (client_Do s (create_command index schema)) = s) ->
  index ≠ "" ->
  exists e1 w1 e2 w2,
    CreateIndexIfNotExists index schema w = Returns (e1, w1)
    ∧ (exists rest, calls w1 = calls w ++ CallDo (FtInfo_Build index) :: rest)
    ∧ (Error (snd (client_Do (server w) (FtInfo_Build index))) = None ->
       e1 = None
       ∧ calls w1 = calls w ++ [CallDo (FtInfo_Build index)]
       ∧ server w1 = server w)
    ∧ (Error (snd (client_Do (server w) (FtInfo_Build index))) ≠ None ->
       calls w1
       = calls w ++ [CallDo (FtInfo_Build index); CallDo (create_command index schema)])
    ∧ CreateIndexIfNotExists index schema w1 = Returns (e2, w2)
    ∧ server w2 = server w1
    ∧ heap w2 = heap w1.
Proof.
  intros Hprobe Hcreated Hrefused Hne.
  destruct (Error (snd (client_Do (server w) (FtInfo_Build index)))) as [e|] eqn:Hfirst.
  - (* the index is absent: probe, then creation *)
    assert (Error (snd (client_Do (server w) (FtInfo_Build index))) ≠ None) as Habsent
      by (rewrite Hfirst; discriminate).
    pose proof (CreateIndexIfNotExists_absent index schema w Hne Habsent) as Hrun1.
    simpl in Hrun1. rewrite Hprobe in Hrun1.
    set (s1 := fst (client_Do (server w) (create_command index schema))) in *.
    set (w1 := mkWorld (heap w) (draws w) s1
                 (calls w ++ [CallDo (FtInfo_Build index);
                              CallDo (create_command index schema)])) in *.
    destruct (Error (snd (client_Do s1 (FtInfo_Build index)))) as [e'|] eqn:Hsecond.
    + (* the second probe does not find it either: the creation was refused *)
      assert (Error (snd (client_Do (server w1) (FtInfo_Build index))) ≠ None) as Habsent2
        by (simpl; rewrite Hsecond; discriminate).
      pose proof (CreateIndexIfNotExists_absent index schema w1 Hne Habsent2) as Hrun2.
      simpl in Hrun2. rewrite Hprobe in Hrun2.
      assert (Error (snd (client_Do (server w) (create_command index schema))) ≠ None)
        as Hfailed.
      { intros Hok. apply Hcreated in Hok. fold s1 in Hok. congruence. }
      assert (s1 = server w) as Hs1 by (apply Hrefused, Hfailed).
      eexists _, w1, _, _. split; [exact Hrun1 |].
      split; [now eexists |]. split; [discriminate |]. split; [done |].
      split; [exact Hrun2 |]. simpl. split; [|done].
      rewrite Hs1. apply Hrefused, Hfailed.
    + (* the second probe finds it *)
      assert (Error (snd (client_Do (server w1) (FtInfo_Build index))) = None) as Hfound2
        by (simpl; exact Hsecond).
      pose proof (CreateIndexIfNotExists_found index schema w1 Hne Hfound2) as Hrun2.
      eexists _, w1, _, _. split; [exact Hrun1 |].
      split; [now eexists |]. split; [discriminate |]. split; [done |].
      split; [exact Hrun2 |]. simpl. split; [apply Hprobe | done].
  - (* the index exists: the probe only *)
    pose proof (CreateIndexIfNotExists_found index schema w Hne Hfirst) as Hrun1.
    rewrite Hprobe in Hrun1.
    set (w1 := mkWorld (heap w) (draws w) (server w)
                 (calls w ++ [CallDo (FtInfo_Build index)])) in *.
    assert (Error (snd (client_Do (server w1) (FtInfo_Build index))) = None) as Hfound2
      by (simpl; exact Hfirst).
    pose proof (CreateIndexIfNotExists_found index schema w1 Hne Hfound2) as Hrun2.
    eexists _, w1, _, _. split; [exact Hrun1 |].
    split; [now eexists |]. split; [done |]. split; [done |].
    split; [exact Hrun2 |]. simpl. split; [apply Hprobe | done].
Qed.

End index_properties.

(** * The properties on the reference instance *)

(** ** The reference store meets the assumptions of C6 *)

Lemma demo_probe_changes_nothing (s : demoStore) (i : string) :
  fst (demo_Do s (FtInfo_Build i)) = s.
Proof. unfold FtInfo_Build. simpl. now case_bool_decide. Qed.

Lemma demo_created_index_is_found (index : string) (schema : list string) (s : demoStore) :
  Error (snd (demo_Do s (create_command (H := demoSchemas) index schema))) = None ->
  Error (snd (demo_Do (fst (demo_Do s (create_command (H := demoSchemas) index schema)))
                (FtInfo_Build index))) = None.
Proof.
  unfold create_command, FtInfo_Build, Arbitrary_Build. simpl.
  case_bool_decide as Hin; simpl; [discriminate |]. intros _.
  rewrite bool_decide_eq_true_2; [done | left].
Qed.

Lemma demo_refused_creation_changes_nothing (index : string) (schema : list string)
    (s : demoStore) :
  Error (snd (demo_Do s (create_command (H := demoSchemas) index schema))) ≠ None ->
  fst (demo_Do s (create_command (H := demoSchemas) index schema)) = s.
Proof.
  unfold create_command, Arbitrary_Build. simpl.
  case_bool_decide as Hin; simpl; [done |]. now intros [].
Qed.

(** ** A batch with a command the store refuses

    The second of three documents has no field: its command is refused, the
    other two are stored, three keys come back, and the error wraps the one
    refusal. *)
Example batch_continues_after_a_refused_command :
  exists w',
    InsertManyWithHash (H := demoClient) (H0 := demoRuntime) "idx" [1; 3; 2] demo_world
    = Returns
        ((["idx:42"; "idx:uuid-2"; "idx:k1"],
          Some (JoinError [ErrorString "wrong number of arguments for HMSET"])), w')
    ∧ fst <$> hashes (server w') = ["idx:k1"; "idx:42"].
Proof. eexists. split; vm_compute; reflexivity. Qed.

(** ** Witnesses *)

(** C1 on a batch that names one document twice: four keys come back. *)
Lemma C1_witness :
  Forall (fun doc => is_Some (heap demo_world !! doc)) [0; 0; 1; 2]
  ∧ exists ids err w',
      InsertManyWithHash (H := demoClient) (H0 := demoRuntime) "idx" [0; 0; 1; 2] demo_world
      = Returns ((ids, err), w')
      ∧ length ids = 4.
Proof.
  assert (Forall (fun doc => is_Some (heap demo_world !! doc)) [0; 0; 1; 2]) as Hlive
    by (repeat constructor; eexists; reflexivity).
  split; [exact Hlive |].
  destruct (C1_InsertManyWithHash_keys_batch_and_joined_error
              (H := demoClient) (H0 := demoRuntime) "idx" [0; 0; 1; 2] demo_world Hlive)
    as (cmds & ids & err & w' & Hrun & Hlen & _).
  exists ids, err, w'. split; [exact Hrun |]. exact Hlen.
Defined.


(** C3 on the vector (1.0, 3.1415927): byte 6 is byte 2 of the second
    component. *)
Lemma C3_witness :
  exists s,
    float32VectorToString [0x3F800000%Z; 0x40490FDB%Z] = Returns s
    ∧ String.length s = 8
    ∧ string_byte s 6 = Some 0x49%Z.
Proof.
  destruct (proj1 C3_vector_encoding_layout [0x3F800000%Z; 0x40490FDB%Z])
    as (s & Hs & Hlen & Hbytes).
  exists s. split; [exact Hs |]. split; [exact Hlen |].
  exact (Hbytes 1 0x40490FDB%Z 2 eq_refl ltac:(lia)).
Defined.

(** C4 on a Redis spec with threshold 0.5: the answer is the engine's. *)
Lemma C4_witness :
  f64_lt f64_zero (Threshold (Common demo_spec_redis)) = true
  ∧ f64_le (Threshold (Common demo_spec_redis)) f64_one = true
  ∧ ValidateSpec demo_spec_redis = Returns None.
Proof.
  split; [reflexivity |]. split; [reflexivity |].
  destruct (C4_ValidateSpec_threshold_then_engine (H := demoEngines) demo_spec_redis)
    as [_ Hpassed].
  destruct (Hpassed eq_refl eq_refl) as (Hredis & _).
  rewrite (Hredis eq_refl). reflexivity.
Defined.

(** C5 on a row with distance "0.12" and no "id", and on a row with a
    field "score" and no "distance", whose "score" passes as it is. *)
Lemma C5_witness :
  Doc demo_row !! "score" = None
  ∧ Doc demo_row_score_alone !! "distance" = None
  ∧ exists m m' w',
      convertFTSearchResIntoMapSchema (H := demoClient) (H0 := demoRuntime)
        [demo_row; demo_row_score_alone] demo_world = Returns ([m; m'], w')
      ∧ m !! "score" = Some (AFloat32 0x3DF5C28F%Z)
      ∧ m !! "distance" = None
      ∧ m !! "id" = Some (AString "idx:1")
      ∧ m !! "title" = Some (AString "a")
      ∧ m' !! "score" = Some (AString "x")
      ∧ m' !! "id" = Some (AString "idx:6").
Proof.
  split; [reflexivity |]. split; [reflexivity |].
  destruct (C5_row_not_holding_distance_and_score_is_converted
              (H := demoClient) (H0 := demoRuntime)
              [demo_row; demo_row_score_alone] demo_world)
    as (result & w' & Hconv & Hlen & Hrows & _).
  destruct (Hrows 0 demo_row eq_refl) as (m & Hm & Hiff).
  destruct (proj2 Hiff (or_intror eq_refl)) as (Hscore & Hpass & Hid & Hnodist).
  destruct (Hrows 1 demo_row_score_alone eq_refl) as (m' & Hm' & Hiff').
  destruct (proj2 Hiff' (or_introl eq_refl)) as (_ & Hpass' & Hid' & _).
  destruct result as [|r0 [|r1 [|? ?]]];
    [discriminate Hlen | discriminate Hlen | | discriminate Hlen].
  injection Hm as ->. injection Hm' as ->.
  exists m, m', w'. split; [exact Hconv |].
  split; [exact (Hscore "0.12" eq_refl) |].
  split; [exact Hnodist |].
  split; [exact (Hid eq_refl) |].
  split; [exact (Hpass "title" "a" ltac:(discriminate) eq_refl) |].
  split; [exact (Hpass' "score" "x" ltac:(discriminate) eq_refl) |].
  exact (Hid' eq_refl).
Defined.

(** C6 on the reference store: the first call creates the index, the
    second finds it. *)
Lemma C6_witness :
  exists e1 w1 e2 w2,
    CreateIndexIfNotExists (H := demoClient) (H1 := demoSchemas) "idx" ["vec"] demo_world
    = Returns (e1, w1)
    ∧ CreateIndexIfNotExists (H := demoClient) (H1 := demoSchemas) "idx" ["vec"] w1
      = Returns (e2, w2)
    ∧ server w2 = server w1.
Proof.
  destruct (C6_CreateIndexIfNotExists_probes_first_and_is_idempotent
              (H := demoClient) (H1 := demoSchemas) "idx" ["vec"] demo_world
              demo_probe_changes_nothing
              (demo_created_index_is_found "idx" ["vec"])
              (demo_refused_creation_changes_nothing "idx" ["vec"])
              ltac:(discriminate))
    as (e1 & w1 & e2 & w2 & Hrun1 & _ & _ & _ & Hrun2 & Hserver & _).
  exists e1, w1, e2, w2. split; [exact Hrun1 |]. split; [exact Hrun2 | exact Hserver].
Defined.

(** C7 on a spec of type "milvus". *)
Lemma C7_witness :
  Type_ (Common demo_spec_unknown) ≠ TypeRedis
  ∧ Type_ (Common demo_spec_unknown) ≠ TypePostgres
  ∧ New demo_spec_unknown = Panics "not supported vector db type"
  ∧ exists e, ValidateSpec demo_spec_unknown = Returns (Some e).
Proof.
  assert (Type_ (Common demo_spec_unknown) ≠ TypeRedis) as Hr by discriminate.
  assert (Type_ (Common demo_spec_unknown) ≠ TypePostgres) as Hp by discriminate.
  split; [exact Hr |]. split; [exact Hp |].
  exact (C7_unknown_type_New_panics_ValidateSpec_errors (H := demoEngines)
           demo_spec_unknown Hr Hp).
Defined.

(** C8 on the document with "id" 42: the field is among the arguments. *)
Lemma C8_witness :
  heap demo_world !! 1 = Some {[ "id" := AString "42"; "title" := AString "b" ]}
  ∧ exists cmd w1,
      toHmsetCommand (H := demoClient) (H0 := demoRuntime) "idx" 1 demo_world
      = Returns (cmd, w1)
      ∧ exists before after, Args cmd = before ++ ["id"; "42"] ++ after.
Proof.
  assert (heap demo_world !! 1 = Some {[ "id" := AString "42"; "title" := AString "b" ]})
    as Hd by reflexivity.
  split; [exact Hd |].
  destruct (C8_upsert_serializes_the_fields_on_entry (H := demoClient) (H0 := demoRuntime)
              "idx" 1 demo_world _ Hd)
    as (entries & cmd & w1 & Hcmd & _ & _ & _ & Hid & _).
  exists cmd, w1. split; [exact Hcmd |].
  exact (Hid (AString "42") eq_refl).
Defined.

(** C9 on the document without "id" and "keys": it gains the fresh one. *)
Lemma C9_witness :
  heap demo_world !! 0 = Some {[ "title" := AString "a" ]}
  ∧ exists cmd w1,
      toHmsetCommand (H := demoClient) (H0 := demoRuntime) "idx" 0 demo_world
      = Returns (cmd, w1)
      ∧ heap w1 !! 0 = Some {[ "id" := AString "uuid-1"; "title" := AString "a" ]}.
Proof.
  assert (heap demo_world !! 0 = Some {[ "title" := AString "a" ]}) as Hd by reflexivity.
  split; [exact Hd |].
  destruct (C9_document_gains_id_in_place (H := demoClient) (H0 := demoRuntime)
              "idx" 0 demo_world _ Hd)
    as [(cmd & w1 & r & w2 & Hcmd & _ & _ & Hgain & _) _].
  exists cmd, w1. split; [exact Hcmd |].
  rewrite (Hgain eq_refl). reflexivity.
Defined.

(** C10 on a row whose distance is the text "abc". *)
Lemma C10_witness :
  Doc demo_row_malformed !! "score" = None
  ∧ @atof demoRuntime "abc" 32 = AtofSyntax
  ∧ exists m w',
      convertFTSearchResIntoMapSchema (H := demoClient) (H0 := demoRuntime)
        [demo_row_malformed] demo_world = Returns ([m], w')
      ∧ m !! "score" = Some (AFloat32 0%Z).
Proof.
  split; [reflexivity |]. split; [reflexivity |].
  destruct (C10_malformed_distance_scores_zero (H := demoClient) (H0 := demoRuntime)
              (H1 := demoSchemas) [demo_row_malformed] demo_world)
    as [(result & w' & Hconv & Hlen & Hrows) _].
  destruct (Hrows 0 demo_row_malformed "abc" eq_refl eq_refl eq_refl eq_refl)
    as (_ & m & Hm & Hscore).
  destruct result as [|m' [|? ?]]; [discriminate Hlen | | discriminate Hlen].
  injection Hm as ->.
  exists m, w'. split; [exact Hconv | exact Hscore].
Defined.

(** ** Counterexamples to the properties as they were first stated *)

(** C1 as stated says the entries returned are the identifiers chosen. For
    the one document with "id" "42" and the index "idx" the identifier
    chosen is "42", and the entry returned is the key "idx:42". *)
Lemma C1_counterexample :
  chosen_identifier {[ "id" := AString "42"; "title" := AString "b" ]} "uuid-1"
  = AString "42"
  ∧ exists w',
      InsertManyWithHash (H := demoClient) (H0 := demoRuntime) "idx" [1] demo_world
      = Returns ((["idx:42"], None), w')
      ∧ ["idx:42"] !! 0 ≠ Some "42".
Proof.
  split; [reflexivity |]. eexists. split; [vm_compute; reflexivity | discriminate].
Qed.


(** C4 as stated says a threshold within (0, 1] is accepted. The spec of
    type "milvus" with threshold 0.5 is rejected. *)
Lemma C4_counterexample :
  f64_lt f64_zero (Threshold (Common demo_spec_unknown)) = true
  ∧ f64_le (Threshold (Common demo_spec_unknown)) f64_one = true
  ∧ ValidateSpec demo_spec_unknown = Returns (Some (ErrorString "invalid spec type"))
  ∧ ValidateSpec demo_spec_unknown ≠ Returns None.
Proof. repeat split; try reflexivity. discriminate. Qed.

(** C5 as stated says "distance" arrives under "score" and every other
    field passes under its own name. A row with the fields "distance" and
    "score" has one "score" afterwards: the parsed distance when the
    iteration meets "score" first, the text of "score" when it meets
    "distance" first; under no order is the row converted as stated. *)
Lemma C5_counterexample :
  convert_doc (H0 := demoRuntime) [0] demo_row_with_score
  = {[ "score" := AFloat32 0x3DF5C28F%Z; "id" := AString "idx:3" ]}
  ∧ convert_doc (H0 := demoRuntime) [1] demo_row_with_score
    = {[ "score" := AString "x"; "id" := AString "idx:3" ]}
  ∧ ~ (exists choices,
          @row_converted demoRuntime demo_row_with_score
            (convert_doc (H0 := demoRuntime) choices demo_row_with_score)).
Proof.
  split; [vm_compute; reflexivity |]. split; [vm_compute; reflexivity |].
  intros (choices & Hscore & Hpass & _).
  specialize (Hscore "0.12" eq_refl).
  specialize (Hpass "score" "x" ltac:(discriminate) eq_refl).
  congruence.
Qed.

(** C8 as stated says the arguments of the command include the identifier
    chosen. The document with the one field "title" gets the fresh
    identifier "uuid-1": the key carries it and the document receives it,
    and the arguments are the field "title" alone. *)
Lemma C8_counterexample :
  exists w1,
    toHmsetCommand (H := demoClient) (H0 := demoRuntime) "idx" 0 demo_world
    = Returns (mkCommand ["HMSET"] ["idx:uuid-1"] ["title"; "a"], w1)
    ∧ heap w1 !! 0 = Some {[ "id" := AString "uuid-1"; "title" := AString "a" ]}
    ∧ ("id" ∉ ["title"; "a"])
    ∧ ("uuid-1" ∉ ["title"; "a"]).
Proof.
  eexists. split; [vm_compute; reflexivity |]. split; [vm_compute; reflexivity |].
  split; intros Hin; repeat (apply elem_of_cons in Hin as [Hin | Hin]; [discriminate |]);
    inversion Hin.
Qed.

(** C10 as stated says a row whose distance does not parse has the score
    zero. In the row with the distance "abc" and a field "score", met in
    this order, the text of "score" is what "score" holds afterwards. And
    for the distance "1e999", well formed and out of range, the parser
    reports an error with an infinity, which is the score. *)
Lemma C10_counterexample :
  Doc demo_row_malformed_with_score !! "distance" = Some "abc"
  ∧ snd (@ParseFloat demoRuntime "abc" 32)
    = Some (NumError "ParseFloat" "abc" ErrSyntax)
  ∧ (exists w',
       convertFTSearchResIntoMapSchema (H := demoClient) (H0 := demoRuntime)
         [demo_row_malformed_with_score]
         (@mkWorld demoClient demo_heap 1 (mkDemoStore [] []) [])
       = Returns ([ {[ "score" := AString "x"; "id" := AString "idx:4" ]} ], w')
       ∧ ({[ "score" := AString "x"; "id" := AString "idx:4" ]} : gmap string any)
           !! "score" ≠ Some (AFloat32 0%Z))
  ∧ snd (@ParseFloat demoRuntime "1e999" 32)
    = Some (NumError "ParseFloat" "1e999" ErrRange)
  ∧ convert_doc (H0 := demoRuntime) [] demo_row_out_of_range !! "score"
    = Some (AFloat32 0x7F800000%Z).
Proof.
  split; [reflexivity |]. split; [reflexivity |]. split.
  - eexists. split; [vm_compute; reflexivity | discriminate].
  - split; [reflexivity | vm_compute; reflexivity].
Qed.

(** * Further properties of the code *)

(** ** The vector codec: nothing is lost *)

Lemma string_of_bytes_inj (b1 b2 : list Z) :
  Forall (fun x => (0 ≤ x < 256)%Z) b1 ->
  Forall (fun x => (0 ≤ x < 256)%Z) b2 ->
  string_of_bytes b1 = string_of_bytes b2 -> b1 = b2.
Proof.
  intros H1. revert b2. induction H1 as [|x b1 Hx _ IH]; intros b2 H2 Heq.
  - destruct b2; [done | discriminate].
  - destruct H2 as [|y b2 Hy H2]; [discriminate |].
    simpl in Heq. injection Heq as Hhead Htail.
    assert (N_of_ascii (ascii_of_N (Z.to_N x)) = N_of_ascii (ascii_of_N (Z.to_N y)))
      as Hn by (now rewrite Hhead).
    rewrite !N_ascii_embedding in Hn by lia.
    f_equal; [lia | now apply IH].
Qed.

Lemma le_bytes_in_range (w : nat) (bits : Z) :
  Forall (fun x => (0 ≤ x < 256)%Z) (le_bytes w bits).
Proof.
  unfold le_bytes. apply Forall_forall. intros x Hin.
  apply list_elem_of_In, in_map_iff in Hin as (k & <- & _).
  apply Z.mod_pos_bound. lia.
Qed.

Lemma vec_bytes_in_range {A} (w : nat) (f : A -> Z) (v : list A) :
  Forall (fun x => (0 ≤ x < 256)%Z) (flat_map (fun e => le_bytes w (f e)) v).
Proof.
  induction v as [|e v IH]; simpl; [constructor |].
  apply Forall_app. split; [apply le_bytes_in_range | exact IH].
Qed.

(** Vectors with the same bytes have the same components, as long as a
    component is determined by its bytes. *)
Lemma vec_bytes_inj {A} (w : nat) (f : A -> Z) (v1 v2 : list A) :
  0 < w ->
  (forall a b, le_bytes w (f a) = le_bytes w (f b) -> f a = f b) ->
  flat_map (fun e => le_bytes w (f e)) v1 = flat_map (fun e => le_bytes w (f e)) v2 ->
  f <$> v1 = f <$> v2.
Proof.
  intros Hw Hinj. revert v2. induction v1 as [|a v1 IH]; intros v2 Heq.
  - destruct v2 as [|b v2]; [done |]. simpl in Heq.
    apply (f_equal length) in Heq. rewrite length_app, le_bytes_length in Heq.
    simpl in Heq. lia.
  - destruct v2 as [|b v2]; simpl in Heq.
    + apply (f_equal length) in Heq. rewrite length_app, le_bytes_length in Heq.
      simpl in Heq. lia.
    + apply app_inj_1 in Heq as [Hhead Htail];
        [|now rewrite !le_bytes_length].
      simpl. f_equal; [now apply Hinj | now apply IH].
Qed.

Lemma Float32bits_range (f : float32) : (0 ≤ Float32bits f < 2 ^ 32)%Z.
Proof. unfold Float32bits. apply Z.mod_pos_bound. lia. Qed.

Lemma Float64bits_range (f : float64) : (0 ≤ Float64bits f < 2 ^ 64)%Z.
Proof. unfold Float64bits. apply Z.mod_pos_bound. lia. Qed.

(** X1. Two vectors that are encoded to the same string have the same bit
    patterns, component by component, for both widths: the encoding loses
    nothing. *)
Theorem vector_encoding_is_injective :
  (forall (v1 v2 : list float32) (s : string),
     float32VectorToString v1 = Returns s ->
     float32VectorToString v2 = Returns s ->
     Float32bits <$> v1 = Float32bits <$> v2)
  ∧ (forall (v1 v2 : list float64) (s : string),
       float64VectorToString v1 = Returns s ->
       float64VectorToString v2 = Returns s ->
       Float64bits <$> v1 = Float64bits <$> v2).
Proof.
  split; intros v1 v2 s H1 H2.
  - rewrite float32VectorToString_bytes in H1, H2.
    injection H1 as <-. injection H2 as H2.
    apply string_of_bytes_inj in H2; try apply vec_bytes_in_range.
    apply (vec_bytes_inj 4 Float32bits); [lia | | now symmetry].
    intros a b Hab. apply (f_equal le_uint) in Hab.
    now rewrite !le_uint_le_bytes_4 in Hab by apply Float32bits_range.
  - rewrite float64VectorToString_bytes in H1, H2.
    injection H1 as <-. injection H2 as H2.
    apply string_of_bytes_inj in H2; try apply vec_bytes_in_range.
    apply (vec_bytes_inj 8 Float64bits); [lia | | now symmetry].
    intros a b Hab. apply (f_equal le_uint) in Hab.
    now rewrite !le_uint_le_bytes_8 in Hab by apply Float64bits_range.
Qed.

(** The bytes of the string at the place of a component. *)
Lemma string_bytes_at_vec {A} (w : nat) (f : A -> Z) (v : list A) (i : nat) (e : A) :
  v !! i = Some e ->
  string_bytes_at (string_of_bytes (flat_map (fun e => le_bytes w (f e)) v)) (w * i) w
  = Some (le_bytes w (f e)).
Proof.
  intros Hi. unfold string_bytes_at. apply mapM_Some.
  apply Forall2_same_length_lookup_2.
  - now rewrite length_seq, le_bytes_length.
  - intros k n x Hn Hx.
    apply lookup_seq in Hn as [-> Hk].
    rewrite le_bytes_lookup in Hx by done. injection Hx as <-.
    apply string_byte_of_bytes.
    + now apply vec_bytes_lookup.
    + apply Z.mod_pos_bound. lia.
Qed.

(** X2. Each component can be read back from the encoded string: the four
    bytes (eight, for the wide floats) at its place, taken lowest first, are
    its bit pattern. *)
Theorem vector_component_reads_back :
  (forall (v : list float32) (i : nat) (e : float32),
     v !! i = Some e ->
     exists s, float32VectorToString v = Returns s
       ∧ le_uint <$> string_bytes_at s (4 * i) 4 = Some (Float32bits e))
  ∧ (forall (v : list float64) (i : nat) (e : float64),
       v !! i = Some e ->
       exists s, float64VectorToString v = Returns s
         ∧ le_uint <$> string_bytes_at s (8 * i) 8 = Some (Float64bits e)).
Proof.
  split; intros v i e Hi; eexists.
  - split; [apply float32VectorToString_bytes |].
    unfold float32_bytes. rewrite (string_bytes_at_vec 4 Float32bits v i e Hi).
    simpl. f_equal. apply le_uint_le_bytes_4, Float32bits_range.
  - split; [apply float64VectorToString_bytes |].
    unfold float64_bytes. rewrite (string_bytes_at_vec 8 Float64bits v i e Hi).
    simpl. f_equal. apply le_uint_le_bytes_8, Float64bits_range.
Qed.

Section upsert_further.
Context `{Client} `{Runtime} `{Schemas}.

(** ** The shape of an upsert command *)

Lemma fields_args_length (entries : list (string * any)) :
  length (fields_args entries) = 2 * length entries.
Proof. induction entries as [|kv entries IH]; simpl; [done | rewrite IH; lia]. Qed.

Lemma fields_args_lookup (entries : list (string * any)) (j : nat) (k : string) (v : any) :
  entries !! j = Some (k, v) ->
  fields_args entries !! (2 * j) = Some k
  ∧ fields_args entries !! (2 * j + 1) = Some (field_text v).
Proof.
  revert j. induction entries as [|kv entries IH]; intros j Hj; [done |].
  destruct j as [|j]; simpl in Hj.
  - injection Hj as ->. done.
  - replace (2 * S j) with (S (S (2 * j))) by lia.
    replace (S (S (2 * j)) + 1) with (S (S (2 * j + 1))) by lia.
    simpl. now apply IH.
Qed.

Lemma fields_args_lookup_even (entries : list (string * any)) (j : nat) :
  fields_args entries !! (2 * j) = fst <$> entries !! j.
Proof.
  revert j. induction entries as [|kv entries IH]; intros j; [done |].
  destruct j as [|j]; [done |].
  replace (2 * S j) with (S (S (2 * j))) by lia. simpl. apply IH.
Qed.

(** X3. The command of a document with [n] fields is HMSET with exactly one
    key and [2 * n] arguments: field names at the even places, each followed
    by the text of its value, every field of the document once. A document
    without fields gives a command without arguments. *)
Theorem upsert_command_has_one_key_and_field_value_pairs
    (index : string) (doc : nat) (w : World) (d : gmap string any) :
  heap w !! doc = Some d ->
  exists cmd w1,
    toHmsetCommand index doc w = Returns (cmd, w1)
    ∧ Commands cmd = ["HMSET"]
    ∧ length (Keys cmd) = 1
    ∧ length (Args cmd) = 2 * size d
    ∧ (forall j, j < size d ->
         exists k v, d !! k = Some v
           ∧ Args cmd !! (2 * j) = Some k
           ∧ Args cmd !! (2 * j + 1) = Some (field_text v))
    ∧ (forall k v, d !! k = Some v ->
         exists j, j < size d
           ∧ Args cmd !! (2 * j) = Some k
           ∧ Args cmd !! (2 * j + 1) = Some (field_text v))
    ∧ (d = ∅ -> Arbitrary_Build cmd = "HMSET" :: Keys cmd).
Proof.
  intros Hd.
  pose proof (toHmsetCommand_spec index doc w d Hd) as Hcmd. simpl in Hcmd.
  set (entries := shuffle (range_choices (draws w)) (map_to_list d)) in *.
  assert (length entries = size d) as Hlen.
  { unfold entries. now rewrite shuffle_Permutation, length_map_to_list. }
  assert (forall k v, (k, v) ∈ entries <-> d !! k = Some v) as Hmem.
  { intros k v. unfold entries. rewrite shuffle_Permutation.
    apply elem_of_map_to_list. }
  eexists _, _. split; [exact Hcmd |]. simpl.
  split; [done |]. split; [done |].
  split; [now rewrite fields_args_length, Hlen |].
  split; [|split].
  - intros j Hj. rewrite <- Hlen in Hj.
    apply lookup_lt_is_Some in Hj as [[k v] Hkv].
    exists k, v. split.
    + apply Hmem. eapply list_elem_of_lookup_2. exact Hkv.
    + now apply fields_args_lookup.
  - intros k v Hkv. apply Hmem, list_elem_of_lookup in Hkv as [j Hj].
    exists j. split.
    + rewrite <- Hlen. eapply lookup_lt_Some. exact Hj.
    + now apply fields_args_lookup.
  - intros ->. unfold Arbitrary_Build. simpl.
    assert (entries = []) as ->; [|done].
    apply length_zero_iff_nil. now rewrite Hlen, map_size_empty.
Qed.

(** ** Nil documents *)

Lemma build_commands_nil (index : string) (docs : list nat) :
  forall (w : World) (commands : list Completed) (docIDs : list string),
    Exists (fun doc => heap w !! doc = None) docs ->
    build_commands index docs commands docIDs w
    = Panics "assignment to entry in nil map".
Proof.
  induction docs as [|doc docs IH]; intros w commands docIDs Hnil.
  - inversion Hnil.
  - cbn [build_commands]. destruct (heap w !! doc) as [d|] eqn:Hd.
    + pose proof (toHmsetCommand_spec index doc w d Hd) as Hcmd. simpl in Hcmd.
      rewrite (go_bind_Returns _ _ _ _ _ Hcmd).
      erewrite go_bind_Returns by reflexivity.
      apply IH. apply Exists_cons in Hnil as [Hhead | Htail]; [congruence |].
      eapply Exists_impl; [exact Htail |]. intros doc' Hdoc'. simpl.
      rewrite lookup_insert_ne; [done |]. intros <-. congruence.
    + now rewrite (go_bind_Panics _ _ _ _ (toHmsetCommand_nil index doc w Hd)).
Qed.

(** X4. A nil map among the documents makes the insertion panic, for the
    single insert and for a batch wherever the nil map stands in it; the
    panic comes while the commands are built, so nothing is submitted. *)
Theorem insertion_of_a_nil_document_panics (index : string) (w : World) :
  (forall doc, heap w !! doc = None ->
     InsertWithHash index doc w = Panics "assignment to entry in nil map")
  ∧ (forall docs, Exists (fun doc => heap w !! doc = None) docs ->
       build_commands index docs [] [] w = Panics "assignment to entry in nil map"
       ∧ InsertManyWithHash index docs w = Panics "assignment to entry in nil map").
Proof.
  split.
  - intros doc Hd. unfold InsertWithHash.
    now rewrite (go_bind_Panics _ _ _ _ (toHmsetCommand_nil index doc w Hd)).
  - intros docs Hnil.
    pose proof (build_commands_nil index docs w [] [] Hnil) as Hbuild.
    split; [exact Hbuild |]. unfold InsertManyWithHash.
    now rewrite (go_bind_Panics _ _ _ _ Hbuild).
Qed.

(** ** Single inserts *)

(** X5. A single insert sends exactly one command, HMSET with the key it
    returns, and returns the error of the reply as it is. The document holds
    its identifier under "id" afterwards whether the store accepted the
    command or not. *)
Theorem InsertWithHash_sends_one_command_and_keeps_the_id
    (index : string) (doc : nat) (w : World) (d : gmap string any) :
  heap w !! doc = Some d ->
  exists key args w2,
    let reply := snd (client_Do (server w) ("HMSET" :: key :: args)) in
    InsertWithHash index doc w = Returns ((key, Error reply), w2)
    ∧ calls w2 = calls w ++ [CallDo ("HMSET" :: key :: args)]
    ∧ server w2 = fst (client_Do (server w) ("HMSET" :: key :: args))
    ∧ length args = 2 * size d
    ∧ heap w2 !! doc
      = Some (<["id" := chosen_identifier d (uuid_String (S (draws w)))]> d)
    ∧ (forall other, other ≠ doc -> heap w2 !! other = heap w !! other).
Proof.
  intros Hd.
  destruct (InsertWithHash_spec index doc w d Hd) as (cmd & w1 & Hcmd & _ & Hins).
  pose proof (toHmsetCommand_spec index doc w d Hd) as Hspec. simpl in Hspec.
  rewrite Hspec in Hcmd. injection Hcmd as <- <-.
  eexists _, _, _. simpl. split; [exact Hins |]. simpl.
  split; [done |]. split; [done |]. split; [|split].
  - now rewrite fields_args_length, shuffle_Permutation, length_map_to_list.
  - apply lookup_insert_eq.
  - intros other Hne. now rewrite lookup_insert_ne.
Qed.

(** X6. Inserting a document a second time returns the key of the first
    time and changes no document: the identifier a document received stays
    with it. The two commands go to the same key, but the second one
    carries the field "id" that the first one left out when the document
    had none on entry. *)
Theorem second_insert_returns_the_same_key
    (index : string) (doc : nat) (w : World) (d : gmap string any) :
  heap w !! doc = Some d ->
  exists key args1 args2 e1 w1 e2 w2,
    InsertWithHash index doc w = Returns ((key, e1), w1)
    ∧ InsertWithHash index doc w1 = Returns ((key, e2), w2)
    ∧ heap w2 = heap w1
    ∧ calls w2 = calls w ++ [CallDo ("HMSET" :: key :: args1);
                             CallDo ("HMSET" :: key :: args2)]
    ∧ length args1 = 2 * size d
    ∧ (d !! "id" = None ->
       (forall j, args1 !! (2 * j) ≠ Some "id") ∧ length args2 = length args1 + 2)
    ∧ (is_Some (d !! "id") -> length args2 = length args1)
    ∧ (exists j, args2 !! (2 * j) = Some "id").
Proof.
  intros Hd.
  destruct (InsertWithHash_spec index doc w d Hd) as (cmd & w1 & Hcmd & _ & Hins).
  pose proof (toHmsetCommand_spec index doc w d Hd) as Hspec. simpl in Hspec.
  rewrite Hspec in Hcmd. injection Hcmd as <- <-.
  set (id := chosen_identifier d (uuid_String (S (draws w)))) in *.
  match type of Hins with _ = Returns (_, ?w') => set (w1 := w') in * end.
  assert (heap w1 !! doc = Some (<["id" := id]> d)) as Hd1
    by (simpl; apply lookup_insert_eq).
  assert (forall fresh, chosen_identifier (<["id" := id]> d) fresh = id) as Hsame.
  { intros fresh. unfold chosen_identifier. now rewrite lookup_insert_eq. }
  destruct (InsertWithHash_spec index doc w1 _ Hd1) as (cmd2 & w2 & Hcmd2 & _ & Hins2).
  pose proof (toHmsetCommand_spec index doc w1 _ Hd1) as Hspec2. simpl in Hspec2.
  rewrite Hspec2 in Hcmd2. injection Hcmd2 as <- <-.
  rewrite Hsame in Hins2.
  set (entries1 := shuffle (range_choices (draws w)) (map_to_list d)) in *.
  set (entries2 := shuffle _ (map_to_list (<["id" := id]> d))) in *.
  assert (length (fields_args entries1) = 2 * size d) as Hl1.
  { unfold entries1. now rewrite fields_args_length, shuffle_Permutation, length_map_to_list. }
  assert (length (fields_args entries2) = 2 * size (<["id" := id]> d)) as Hl2.
  { unfold entries2. now rewrite fields_args_length, shuffle_Permutation, length_map_to_list. }
  eexists _, (fields_args entries1), (fields_args entries2), _, w1, _, _.
  split; [exact Hins |]. split; [exact Hins2 |].
  subst w1. cbn [heap calls draws server]. rewrite !Hsame.
  split.
  { rewrite (insert_id (<["id" := id]> d) "id" id) by apply lookup_insert_eq.
    now rewrite insert_insert_eq. }
  split; [now rewrite <- app_assoc |]. split; [exact Hl1 |].
  split; [|split].
  - intros Hnone. split.
    + intros j. rewrite fields_args_lookup_even.
      destruct (entries1 !! j) as [[k v]|] eqn:Hj; [|done]. simpl.
      intros [= ->]. apply list_elem_of_lookup_2 in Hj. unfold entries1 in Hj.
      rewrite shuffle_Permutation in Hj. apply elem_of_map_to_list in Hj. congruence.
    + rewrite Hl1, Hl2, map_size_insert_None by done. lia.
  - intros [v Hv]. rewrite Hl1, Hl2. erewrite map_size_insert_Some by done. done.
  - assert (("id", id) ∈ entries2) as Hin.
    { unfold entries2. rewrite shuffle_Permutation.
      apply elem_of_map_to_list, lookup_insert_eq. }
    apply list_elem_of_lookup in Hin as [j Hj]. exists j.
    now rewrite fields_args_lookup_even, Hj.
Qed.

(** ** Batches *)

(** X7. A document named twice in a batch gets one identifier: the entries
    returned at its two places are the same key. *)
Theorem batch_gives_one_key_to_a_repeated_document
    (index : string) (docs : list nat) (w : World) (i j doc : nat) :
  Forall (fun doc' => is_Some (heap w !! doc')) docs ->
  docs !! i = Some doc -> docs !! j = Some doc ->
  exists ids err w' key,
    InsertManyWithHash index docs w = Returns ((ids, err), w')
    ∧ ids !! i = Some key
    ∧ ids !! j = Some key.
Proof.
  intros Hlive Hi Hj.
  destruct (build_commands_spec index docs w [] [] Hlive)
    as (cmds & ids & w1 & Hrun & _ & _ & _ & _ & _ & _ & Hidx).
  simpl in Hrun.
  pose proof (InsertManyWithHash_spec index docs w w1 cmds ids Hrun) as Hmany.
  destruct (Hidx i doc Hi) as (d1 & idv & args & Hd1 & Hid1 & Hkey & _).
  destruct (Hidx j doc Hj) as (d2 & idv2 & args2 & Hd2 & Hid2 & Hkey2 & _).
  rewrite Hd1 in Hd2. injection Hd2 as <-.
  rewrite Hid1 in Hid2. injection Hid2 as <-.
  eexists _, _, _, _. split; [exact Hmany |]. split; [exact Hkey | exact Hkey2].
Qed.

Lemma length_omap_filter (result : list RedisResult) :
  length (omap Error result)
  = length (filter (fun res => Error res ≠ None) result).
Proof.
  induction result as [|res result IH]; [done |].
  rewrite filter_cons. simpl. destruct (Error res) as [e|] eqn:He.
  - rewrite decide_True by done. simpl. f_equal. exact IH.
  - rewrite decide_False by (intros Hne; now apply Hne). exact IH.
Qed.

(** X8. The error of a batch wraps the errors of the failed replies in the
    order of the replies, one per failed reply, and nothing else: it does
    not record which commands failed. Two reply lists with the same errors
    in the same order give the same error, wherever the failures stand. *)
Theorem batch_error_lists_failures_without_their_places
    (index : string) (docs : list nat) (w : World) :
  Forall (fun doc => is_Some (heap w !! doc)) docs ->
  (exists cmds ids err w',
     InsertManyWithHash index docs w = Returns ((ids, err), w')
     ∧ calls w' = calls w ++ [CallDoMulti cmds]
     ∧ forall es, err = Some (JoinError es) ->
         es = omap Error (snd (client_DoMulti (server w) cmds))
         ∧ 0 < length es
         ∧ length es
           = length (filter (fun res => Error res ≠ None)
                       (snd (client_DoMulti (server w) cmds))))
  ∧ (forall result1 result2 : list RedisResult,
       omap Error result1 = omap Error result2 ->
       errors_Join (collect_errors result1 []) = errors_Join (collect_errors result2 [])).
Proof.
  intros Hlive. split.
  - destruct (build_commands_spec index docs w [] [] Hlive)
      as (cmds & ids & w1 & Hrun & _ & _ & Hsrv & Hcalls & _).
    simpl in Hrun.
    pose proof (InsertManyWithHash_spec index docs w w1 cmds ids Hrun) as Hmany.
    rewrite Hsrv, Hcalls in Hmany.
    eexists cmds, _, _, _. split; [exact Hmany |]. split; [done |].
    intros es Hes. unfold errors_Join in Hes. rewrite omap_id_fmap in Hes.
    destruct (omap Error (snd (client_DoMulti (server w) cmds))) as [|e0 es'] eqn:Hom;
      [discriminate |].
    injection Hes as <-. split; [done |]. split; [simpl; lia |].
    rewrite <- Hom. apply length_omap_filter.
  - intros result1 result2 Heq.
    rewrite !errors_Join_collect. unfold errors_Join.
    now rewrite !omap_id_fmap, Heq.
Qed.

End upsert_further.

Section search_further.
Context `{Client} `{Runtime} `{Schemas}.

(** ** The shape of a converted row *)

Lemma convert_fields_is_Some (fields : list (string * string)) :
  forall (docMap : gmap string any) (k : string),
    is_Some (convert_fields fields docMap !! k)
    <-> is_Some (docMap !! k)
        ∨ (k ≠ "distance" ∧ k ∈ fields.*1)
        ∨ (k = "score" ∧ "distance" ∈ fields.*1).
Proof.
  induction fields as [|[k0 field] fields IH]; intros docMap k.
  - simpl. split; [now left |]. intros [Hk | [[_ Hk] | [_ Hk]]]; [done | |];
      now apply elem_of_nil in Hk.
  - cbn [convert_fields]. rewrite fmap_cons. cbn [fst].
    destruct (decide (k0 = "distance")) as [-> | Hk0];
      rewrite IH, lookup_insert_is_Some, !elem_of_cons.
    + clear IH. destruct (decide (k = "score")) as [-> | Hks];
        intuition (congruence || auto).
    + clear IH. destruct (decide (k = k0)) as [-> | Hkk];
        intuition (congruence || auto).
Qed.

Lemma convert_doc_shape (choices : list nat) (doc : FtSearchDoc) :
  let m := convert_doc choices doc in
  m !! "distance" = None
  ∧ m !! "id" = Some (AString (default (Key doc) (Doc doc !! "id")))
  ∧ (forall k, k ≠ "id" -> k ≠ "score" -> k ≠ "distance" ->
       m !! k = AString <$> Doc doc !! k)
  ∧ (is_Some (m !! "score")
     <-> is_Some (Doc doc !! "distance") ∨ is_Some (Doc doc !! "score")).
Proof.
  destruct (row_fields choices (Doc doc)) as (Hnd & Hmem & Hdom).
  set (fields := shuffle choices (map_to_list (Doc doc))) in *.
  assert (forall k, k ≠ "score" -> k ≠ "distance" ->
            convert_fields fields ∅ !! k = AString <$> Doc doc !! k) as Hpass.
  { intros k Hks Hkd. destruct (Doc doc !! k) as [field|] eqn:Hk; simpl.
    - apply convert_fields_passed; [done | now apply Hmem | done | done].
    - rewrite convert_fields_other; [done | | done].
      rewrite Hdom, Hk. now intros [? ?]. }
  assert (is_Some (convert_fields fields ∅ !! "score")
          <-> is_Some (Doc doc !! "distance") ∨ is_Some (Doc doc !! "score")) as Hscore.
  { rewrite convert_fields_is_Some, lookup_empty, !Hdom.
    split.
    - intros [[? ?] | [[_ ?] | [_ ?]]]; [done | now right | now left].
    - intros [? | ?]; [right; right | right; left]; done. }
  pose proof (convert_fields_never_distance fields ∅) as Hdist.
  rewrite lookup_empty in Hdist.
  pose proof (Hpass "id" ltac:(done) ltac:(done)) as Hid.
  unfold convert_doc. fold fields. cbv zeta.
  destruct (Doc doc !! "id") as [s|] eqn:Hs; simpl in Hid |- *; rewrite Hid.
  - split; [exact Hdist |]. split; [exact Hid |]. split; [|exact Hscore].
    intros k _ Hks Hkd. now apply Hpass.
  - rewrite lookup_insert_eq, !lookup_insert_ne by done.
    split; [exact Hdist |]. split; [done |]. split; [|exact Hscore].
    intros k Hki Hks Hkd. rewrite lookup_insert_ne by done. now apply Hpass.
Qed.

(** X9. Whatever the rows hold and in whatever order their fields are
    visited, every mapping of the conversion has an "id", the row's own
    "id" field or else the row key; has no "distance"; has every other
    field of the row, "score" apart, as the string it was; and has a "score"
    exactly when the row has a "distance" or a "score". The conversion
    sends no command and touches no document. *)
Theorem converted_rows_have_id_and_no_distance (docs : list FtSearchDoc) (w : World) :
  exists result w',
    convertFTSearchResIntoMapSchema docs w = Returns (result, w')
    ∧ heap w' = heap w ∧ server w' = server w ∧ calls w' = calls w
    ∧ length result = length docs
    ∧ forall i doc m, docs !! i = Some doc -> result !! i = Some m ->
        m !! "distance" = None
        ∧ m !! "id" = Some (AString (default (Key doc) (Doc doc !! "id")))
        ∧ (forall k, k ≠ "id" -> k ≠ "score" -> k ≠ "distance" ->
             m !! k = AString <$> Doc doc !! k)
        ∧ (is_Some (m !! "score")
           <-> is_Some (Doc doc !! "distance") ∨ is_Some (Doc doc !! "score")).
Proof.
  destruct (convertFTSearchResIntoMapSchema_spec docs w) as (result & Hconv & Hlen & Hrows).
  eexists result, _. split; [exact Hconv |]. simpl.
  do 4 (split; [done |]).
  intros i doc m Hdoc Hm. rewrite (Hrows i doc Hdoc) in Hm. injection Hm as <-.
  apply convert_doc_shape.
Qed.

(** X10. The score of a row without a "score" field follows the reading of
    its "distance" text: the float32 of the number read, when the text is a
    number in range; the float32 of the infinity the reading yields, when it
    is out of range; and positive zero, when it is no number. No reading
    makes the conversion fail. *)
Theorem score_follows_the_reading_of_distance
    (choices : list nat) (doc : FtSearchDoc) (field : string) :
  Doc doc !! "distance" = Some field ->
  Doc doc !! "score" = None ->
  convert_doc choices doc !! "score"
  = Some (AFloat32
            match atof field 32 with
            | AtofValue f => float32_of_float64 f
            | AtofRange inf => float32_of_float64 inf
            | AtofSyntax => 0%Z
            end).
Proof.
  intros Hdist Hscore.
  destruct (row_fields choices (Doc doc)) as (Hnd & Hmem & Hdom).
  assert (convert_fields (shuffle choices (map_to_list (Doc doc))) ∅ !! "score"
          = Some (AFloat32 (float32_of_float64 (fst (ParseFloat field 32))))) as Hs.
  { apply convert_fields_score; [done | | now apply Hmem].
    rewrite Hdom, Hscore. now intros [? ?]. }
  assert (float32_of_float64 (fst (ParseFloat field 32))
          = match atof field 32 with
            | AtofValue f => float32_of_float64 f
            | AtofRange inf => float32_of_float64 inf
            | AtofSyntax => 0%Z
            end) as <-.
  { unfold ParseFloat. now destruct (atof field 32). }
  unfold convert_doc.
  destruct (convert_fields _ ∅ !! "id"); [exact Hs |].
  now rewrite lookup_insert_ne.
Qed.

(** ** Searches *)

(** X11. A search sends exactly one command, the query's, and touches no
    document. When the reply cannot be read as a search result the call
    returns the count 0, no list and the error, whatever count and rows
    came with it; otherwise the count of the reply, one mapping per row
    and no error. *)
Theorem Find_sends_one_command_and_reports_its_reply
    (query : RedisVectorQuery) (w : World) :
  let cmd := Arbitrary_Build (RedisVectorQuery_ToCommand query) in
  exists out w',
    Find query w = Returns (out, w')
    ∧ heap w' = heap w
    ∧ server w' = fst (client_Do (server w) cmd)
    ∧ calls w' = calls w ++ [CallDo cmd]
    ∧ match AsFtSearch (snd (client_Do (server w) cmd)) with
      | (total, rows, Some e) => out = (0%Z, None, Some e) ∧ draws w' = draws w
      | (total, rows, None) =>
          exists result, out = (total, Some result, None)
            ∧ length result = length rows
            ∧ draws w' = draws w + length rows
      end.
Proof.
  intros cmd. unfold Find. fold cmd. unfold go_bind at 1. unfold Do.
  destruct (client_Do (server w) cmd) as [s' res]. simpl.
  destruct (AsFtSearch res) as [[total rows] [e|]].
  - unfold go_ret. eexists _, _. split; [reflexivity |]. simpl. done.
  - set (w1 := mkWorld (heap w) (draws w) s' (calls w ++ [CallDo cmd])).
    destruct (convertFTSearchResIntoMapSchema_spec rows w1)
      as (result & Hconv & Hlen & _).
    rewrite (go_bind_Returns _ _ _ _ _ Hconv). unfold go_ret.
    eexists _, _. split; [reflexivity |]. simpl.
    do 3 (split; [done |]). exists result. done.
Qed.

(** ** Index creation *)

(** X12. The complete outcomes of [CreateIndexIfNotExists]. An empty name
    is refused with "empty index name" before any command. Otherwise the
    probe is sent; if it succeeds the call returns nil; if it fails, for
    whatever reason, the creation is sent and its error, or nil, is the
    result, the error of the probe never. No document is touched. *)
Theorem CreateIndexIfNotExists_outcomes
    (index : string) (schema : IndexSchema) (w : World) :
  let probe := client_Do (server w) (FtInfo_Build index) in
  let creation := client_Do (fst probe) (create_command index schema) in
  exists err w',
    CreateIndexIfNotExists index schema w = Returns (err, w')
    ∧ heap w' = heap w ∧ draws w' = draws w
    ∧ ((index = "" ∧ err = Some (ErrorString "empty index name") ∧ w' = w
        ∧ CheckIndexExists index w = Returns (false, w))
       ∨ (index ≠ "" ∧ Error (snd probe) = None ∧ err = None
          ∧ server w' = fst probe
          ∧ calls w' = calls w ++ [CallDo (FtInfo_Build index)])
       ∨ (index ≠ "" ∧ Error (snd probe) ≠ None ∧ err = Error (snd creation)
          ∧ server w' = fst creation
          ∧ calls w' = calls w ++ [CallDo (FtInfo_Build index);
                                   CallDo (create_command index schema)])).
Proof.
  intros probe creation.
  destruct (decide (index = "")) as [-> | Hne].
  - exists (Some (ErrorString "empty index name")), w.
    split; [reflexivity |]. split; [done |]. split; [done |]. left. done.
  - destruct (Error (snd probe)) as [e|] eqn:Hprobe.
    + eexists _, _. split.
      { apply CreateIndexIfNotExists_absent; [done |]. fold probe. now rewrite Hprobe. }
      simpl. split; [done |]. split; [done |]. right; right. done.
    + eexists _, _. split.
      { apply CreateIndexIfNotExists_found; [done |]. exact Hprobe. }
      simpl. split; [done |]. split; [done |]. right; left. done.
Qed.

(** ** Keys and the prefix of the index *)

Lemma prefix_append_same (a b c : string) :
  String.prefix (a +:+ b) (a +:+ c) = String.prefix b c.
Proof.
  induction a as [|x a IH]; simpl; [done |].
  destruct (ascii_dec x x) as [_ | Hne]; [exact IH | done].
Qed.

Lemma key_has_prefix (index : string) (idv : any) :
  String.prefix (getPrefix index) (Sprintf_s_colon_s index idv) = true.
Proof.
  unfold getPrefix, Sprintf_s_colon_s. rewrite prefix_append_same. simpl.
  destruct (ascii_dec ":" ":") as [_ | Hne]; [now destruct (Sprintf_s idv) | done].
Qed.

(** X13. The index is created over the one key prefix "<index>:", as
    hashes, and every key an insertion under that index returns begins with
    that prefix, whatever the identifiers of the documents are. *)
Theorem keys_begin_with_the_prefix_of_the_index
    (index : string) (schema : IndexSchema) (docs : list nat) (w : World) :
  index ≠ "" ->
  Error (snd (client_Do (server w) (FtInfo_Build index))) ≠ None ->
  Forall (fun doc => is_Some (heap w !! doc)) docs ->
  exists idx err w1 ids err' w2,
    CreateIndexIfNotExists index schema w = Returns (err, w1)
    ∧ last (calls w1) = Some (CallDo (Arbitrary_Build (Index_ToCommand idx)))
    ∧ Name idx = index ∧ IndexType idx = "HASH" ∧ Prefix idx = [getPrefix index]
    ∧ InsertManyWithHash index docs w1 = Returns ((ids, err'), w2)
    ∧ length ids = length docs
    ∧ Forall (fun key => String.prefix (getPrefix index) key = true) ids.
Proof.
  intros Hne Habsent Hlive.
  pose proof (CreateIndexIfNotExists_absent index schema w Hne Habsent) as Hcreate.
  cbv zeta in Hcreate.
  match type of Hcreate with _ = Returns (_, ?w') => set (w1 := w') in * end.
  assert (Forall (fun doc => is_Some (heap w1 !! doc)) docs) as Hlive1 by exact Hlive.
  destruct (build_commands_spec index docs w1 [] [] Hlive1)
    as (cmds & ids & w2 & Hrun & _ & Hli & _ & _ & _ & _ & Hidx).
  simpl in Hrun.
  pose proof (InsertManyWithHash_spec index docs w1 w2 cmds ids Hrun) as Hmany.
  exists (mkIndex index schema [getPrefix index] "HASH").
  eexists _, w1, ids, _, _. split; [exact Hcreate |].
  split.
  { simpl.
    replace (calls w ++ [CallDo (FtInfo_Build index); CallDo (create_command index schema)])
      with ((calls w ++ [CallDo (FtInfo_Build index)]) ++ [CallDo (create_command index schema)])
      by now rewrite <- app_assoc.
    now rewrite last_snoc. }
  do 3 (split; [reflexivity |]). split; [exact Hmany |]. split; [exact Hli |].
  apply Forall_lookup. intros i key Hkey.
  assert (i < length docs) as Hi by (rewrite <- Hli; eapply lookup_lt_Some; exact Hkey).
  apply lookup_lt_is_Some in Hi as [doc Hdoc].
  destruct (Hidx i doc Hdoc) as (d1 & idv & args & _ & _ & Hkey' & _).
  rewrite Hkey in Hkey'. injection Hkey' as ->. apply key_has_prefix.
Qed.

(** X14. The key and the stored "id" of a document agree when the
    identifier is a string: the key is "<index>:<id>" and the field "id" is
    sent with that text. For an integer identifier they differ: the field is
    sent as the decimal text, but the key reads "<index>:%!s(int=<n>)". *)
Theorem key_of_an_integer_id_is_not_its_decimal_text
    (index : string) (doc : nat) (w : World) (d : gmap string any) :
  heap w !! doc = Some d ->
  exists cmd w1,
    toHmsetCommand index doc w = Returns (cmd, w1)
    ∧ (forall s, d !! "id" = Some (AString s) ->
         Keys cmd = [index +:+ ":" +:+ s]
         ∧ exists j, Args cmd !! (2 * j) = Some "id"
                     ∧ Args cmd !! (2 * j + 1) = Some s)
    ∧ (forall n : Z, d !! "id" = Some (AInt n) ->
         Keys cmd = [index +:+ ":%!s(int=" +:+ pretty n +:+ ")"]
         ∧ exists j, Args cmd !! (2 * j) = Some "id"
                     ∧ Args cmd !! (2 * j + 1) = Some (pretty n)).
Proof.
  intros Hd.
  pose proof (toHmsetCommand_spec index doc w d Hd) as Hcmd. simpl in Hcmd.
  set (entries := shuffle (range_choices (draws w)) (map_to_list d)) in *.
  assert (forall v, d !! "id" = Some v ->
            exists j, fields_args entries !! (2 * j) = Some "id"
                      ∧ fields_args entries !! (2 * j + 1) = Some (field_text v)) as Hsent.
  { intros v Hv.
    assert (("id", v) ∈ entries) as Hin.
    { unfold entries. rewrite shuffle_Permutation. now apply elem_of_map_to_list. }
    apply list_elem_of_lookup in Hin as [j Hj]. exists j.
    now apply fields_args_lookup. }
  eexists _, _. split; [exact Hcmd |]. simpl. split.
  - intros s Hs. unfold chosen_identifier. rewrite Hs. split; [done |].
    exact (Hsent _ Hs).
  - intros n Hn. unfold chosen_identifier. rewrite Hn. split; [done |].
    exact (Hsent _ Hn).
Qed.

End search_further.

Section vectordb_further.
Context `{Engines}.

Lemma f64_NaN_compares_false (a b : float64) :
  f64_isNaN a = true ->
  f64_le a b = false ∧ f64_lt a b = false ∧ f64_le b a = false ∧ f64_lt b a = false.
Proof.
  intros Hnan. unfold f64_le, f64_lt. rewrite Hnan. simpl.
  rewrite !andb_false_r. done.
Qed.

Lemma f64_not_le_lt (a b : float64) :
  f64_isNaN a = false -> f64_isNaN b = false ->
  f64_le a b = false -> f64_lt b a = true.
Proof.
  unfold f64_le, f64_lt. intros -> ->. simpl. lia.
Qed.

(** X15. A spec that [ValidateSpec] accepts names one of the two engines,
    that engine accepted its sub-spec, and [New] on it is the engine's
    constructor, never the panic for an unsupported type. Its threshold is
    above 0 and at most 1, or is not a number. *)
Theorem validated_spec_is_built_by_its_engine (spec : Spec) :
  ValidateSpec spec = Returns None ->
  ((Type_ (Common spec) = TypeRedis
    ∧ redisvector_ValidateSpec (Redis spec) = Returns None
    ∧ New spec = redisvector_New (Common spec) (Redis spec))
   ∨ (Type_ (Common spec) = TypePostgres
      ∧ pgvector_ValidateSpec (Postgres spec) = Returns None
      ∧ New spec = pgvector_New (Common spec) (Postgres spec)))
  ∧ (f64_isNaN (Threshold (Common spec)) = true
     ∨ (f64_lt f64_zero (Threshold (Common spec)) = true
        ∧ f64_le (Threshold (Common spec)) f64_one = true)).
Proof.
  unfold ValidateSpec, New. intros Hvalid.
  destruct (f64_le (Threshold (Common spec)) f64_zero) eqn:Hle; [discriminate |].
  destruct (f64_gt (Threshold (Common spec)) f64_one) eqn:Hgt; [discriminate |].
  simpl in Hvalid. split.
  - destruct (decide (Type_ (Common spec) = TypeRedis)) as [Hr | Hr]; [left; done |].
    destruct (decide (Type_ (Common spec) = TypePostgres)) as [Hp | Hp];
      [right; done | discriminate].
  - destruct (f64_isNaN (Threshold (Common spec))) eqn:Hnan; [now left | right].
    split.
    + now apply f64_not_le_lt.
    + unfold f64_gt in Hgt. unfold f64_le, f64_lt in *. rewrite Hnan in *.
      simpl in *. lia.
Qed.

(** X16. A threshold that is not a number passes the threshold check: the
    result of [ValidateSpec] is then that of the engine named, or "invalid
    spec type", and never "invalid threshold". *)
Theorem NaN_threshold_is_not_rejected (spec : Spec) :
  f64_isNaN (Threshold (Common spec)) = true ->
  ValidateSpec spec =
    if decide (Type_ (Common spec) = TypeRedis) then
      redisvector_ValidateSpec (Redis spec)
    else if decide (Type_ (Common spec) = TypePostgres) then
      pgvector_ValidateSpec (Postgres spec)
    else Returns (Some (ErrorString "invalid spec type")).
Proof.
  intros Hnan. unfold ValidateSpec, f64_gt.
  destruct (f64_NaN_compares_false _ f64_zero Hnan) as (-> & _).
  destruct (f64_NaN_compares_false _ f64_one Hnan) as (_ & _ & _ & ->).
  reflexivity.
Qed.

End vectordb_further.

Section batch_further.
Context `{Client} `{Runtime} `{Schemas}.

(** ** Fresh identifiers within a batch *)

Lemma append_inj_r (a b c : string) : a +:+ b = a +:+ c -> b = c.
Proof.
  induction a as [|x a IH]; simpl; [done |]. intros Heq. injection Heq as Heq.
  now apply IH.
Qed.

(** The first loop of a batch, by the draws of its documents: a document
    that has an "id" is left as it is, and the documents that have neither
    "id" nor "keys" receive identifiers of draws of their own. *)
Lemma build_commands_draws (index : string) (docs : list nat) :
  forall (w : World) (commands : list Completed) (docIDs : list string),
    Forall (fun doc => is_Some (heap w !! doc)) docs ->
    exists out w1 (draw_of : nat -> nat),
      build_commands index docs commands docIDs w = Returns (out, w1)
      ∧ draws w <= draws w1
      ∧ (forall doc d, heap w !! doc = Some d -> is_Some (d !! "id") ->
           heap w1 !! doc = Some d)
      ∧ (forall doc d, doc ∈ docs -> heap w !! doc = Some d ->
           d !! "id" = None -> d !! "keys" = None ->
           draws w < draw_of doc <= draws w1
           ∧ heap w1 !! doc = Some (<["id" := AString (uuid_String (draw_of doc))]> d))
      ∧ (forall a b da db, a ∈ docs -> b ∈ docs ->
           heap w !! a = Some da -> da !! "id" = None -> da !! "keys" = None ->
           heap w !! b = Some db -> db !! "id" = None -> db !! "keys" = None ->
           draw_of a = draw_of b -> a = b).
Proof.
  induction docs as [|doc docs IH]; intros w commands docIDs Hlive.
  - exists (commands, docIDs), w, (fun _ => 0). split; [reflexivity |].
    split; [lia |]. split; [done |].
    split; [intros doc d Hin; now apply elem_of_nil in Hin |].
    intros a b da db Hin. now apply elem_of_nil in Hin.
  - apply Forall_cons in Hlive as [[d Hd] Hlive].
    pose proof (toHmsetCommand_spec index doc w d Hd) as Hcmd. simpl in Hcmd.
    set (id := chosen_identifier d (uuid_String (S (draws w)))) in *.
    match type of Hcmd with _ = Returns (_, ?w0) => set (w' := w0) in * end.
    assert (S (draws w) <= draws w') as Hdraws.
    { simpl. destruct (d !! "id"); [lia |]. destruct (d !! "keys"); lia. }
    assert (forall l, l ≠ doc -> heap w' !! l = heap w !! l) as Hframe.
    { intros l Hne. simpl. now rewrite lookup_insert_ne. }
    assert (heap w' !! doc = Some (<["id" := id]> d)) as Hd'.
    { simpl. apply lookup_insert_eq. }
    assert (Forall (fun doc0 => is_Some (heap w' !! doc0)) docs) as Hlive'.
    { eapply Forall_impl; [exact Hlive |]. intros l Hl. simpl.
      destruct (decide (l = doc)) as [-> | Hne];
        [rewrite lookup_insert_eq; eauto | now rewrite lookup_insert_ne]. }
    cbn [build_commands].
    rewrite (go_bind_Returns _ _ _ _ _ Hcmd).
    erewrite go_bind_Returns by reflexivity.
    destruct (IH w' (commands ++ [Arbitrary_Build (mkCommand ["HMSET"]
                [Sprintf_s_colon_s index id]
                (fields_args (shuffle (range_choices (draws w)) (map_to_list d))))])
                (docIDs ++ [Sprintf_s_colon_s index id]) Hlive')
      as (out & w1 & draw_of & Hrun & Hle & Hkept & Hfresh & Hinj).
    exists out, w1, (fun l => if decide (l = doc) then S (draws w) else draw_of l).
    split; [exact Hrun |]. split; [lia |].
    assert (forall l dl, l ≠ doc -> l ∈ doc :: docs -> heap w !! l = Some dl ->
              l ∈ docs ∧ heap w' !! l = Some dl) as Htail.
    { intros l dl Hne Hin Hl. apply elem_of_cons in Hin as [-> | Hin]; [done |].
      split; [done |]. now rewrite Hframe. }
    split; [|split].
    + intros l dl Hl Hid. apply (Hkept l dl); [|done].
      destruct (decide (l = doc)) as [-> | Hne]; [|now rewrite Hframe].
      rewrite Hd'. rewrite Hd in Hl. injection Hl as <-. f_equal.
      destruct Hid as [v Hv]. apply insert_id.
      unfold id, chosen_identifier. now rewrite Hv.
    + intros l dl Hin Hl Hid Hkeys.
      destruct (decide (l = doc)) as [-> | Hne].
      * rewrite Hd in Hl. injection Hl as <-. split; [lia |].
        rewrite (Hkept doc _ Hd') by (rewrite lookup_insert_eq; eauto).
        unfold id, chosen_identifier. now rewrite Hid, Hkeys.
      * destruct (Htail l dl Hne Hin Hl) as [Hin' Hl'].
        destruct (Hfresh l dl Hin' Hl' Hid Hkeys) as [Hrange Hheap].
        split; [lia | exact Hheap].
    + intros a b da db Ha Hb Hda Hida Hkeysa Hdb Hidb Hkeysb.
      destruct (decide (a = doc)) as [-> | Hna], (decide (b = doc)) as [-> | Hnb];
        [done | | |].
      * destruct (Htail b db Hnb Hb Hdb) as [Hb' Hdb'].
        destruct (Hfresh b db Hb' Hdb' Hidb Hkeysb) as [Hrange _]. lia.
      * destruct (Htail a da Hna Ha Hda) as [Ha' Hda'].
        destruct (Hfresh a da Ha' Hda' Hida Hkeysa) as [Hrange _]. lia.
      * destruct (Htail a da Hna Ha Hda) as [Ha' Hda'].
        destruct (Htail b db Hnb Hb Hdb) as [Hb' Hdb'].
        now apply (Hinj a b da db).
Qed.

(** X17. Two different documents of a batch that have neither "id" nor
    "keys" receive identifiers of two different draws of the generator, and
    their keys are "<index>:" followed by those identifiers: the two keys
    coincide only if the generator yields the same text twice. *)
Theorem fresh_identifiers_come_from_distinct_draws
    (index : string) (docs : list nat) (w : World) (i j a b : nat)
    (da db : gmap string any) :
  Forall (fun doc => is_Some (heap w !! doc)) docs ->
  docs !! i = Some a -> docs !! j = Some b -> a ≠ b ->
  heap w !! a = Some da -> da !! "id" = None -> da !! "keys" = None ->
  heap w !! b = Some db -> db !! "id" = None -> db !! "keys" = None ->
  exists ids err w' na nb,
    InsertManyWithHash index docs w = Returns ((ids, err), w')
    ∧ na ≠ nb
    ∧ ids !! i = Some (index +:+ ":" +:+ uuid_String na)
    ∧ ids !! j = Some (index +:+ ":" +:+ uuid_String nb)
    ∧ heap w' !! a = Some (<["id" := AString (uuid_String na)]> da)
    ∧ heap w' !! b = Some (<["id" := AString (uuid_String nb)]> db)
    ∧ (uuid_String na ≠ uuid_String nb -> ids !! i ≠ ids !! j).
Proof.
  intros Hlive Hi Hj Hab Hda Hida Hkeysa Hdb Hidb Hkeysb.
  destruct (build_commands_spec index docs w [] [] Hlive)
    as (cmds & ids & w1 & Hrun & _ & _ & _ & _ & _ & _ & Hidx).
  destruct (build_commands_draws index docs w [] [] Hlive)
    as (out & w1' & draw_of & Hrun' & _ & _ & Hfresh & Hinj).
  rewrite Hrun in Hrun'. injection Hrun' as _ <-.
  simpl in Hrun.
  pose proof (InsertManyWithHash_spec index docs w w1 cmds ids Hrun) as Hmany.
  assert (a ∈ docs) as Ha by (eapply list_elem_of_lookup_2; exact Hi).
  assert (b ∈ docs) as Hb by (eapply list_elem_of_lookup_2; exact Hj).
  destruct (Hfresh a da Ha Hda Hida Hkeysa) as [_ Hha].
  destruct (Hfresh b db Hb Hdb Hidb Hkeysb) as [_ Hhb].
  destruct (Hidx i a Hi) as (d1 & idva & argsa & Hd1 & Hid1 & Hkeya & _).
  destruct (Hidx j b Hj) as (d2 & idvb & argsb & Hd2 & Hid2 & Hkeyb & _).
  rewrite Hha in Hd1. injection Hd1 as <-.
  rewrite Hhb in Hd2. injection Hd2 as <-.
  rewrite lookup_insert_eq in Hid1, Hid2.
  injection Hid1 as <-. injection Hid2 as <-.
  eexists ids, _, _, (draw_of a), (draw_of b). split; [exact Hmany |].
  split; [intros Heq; apply Hab; now apply (Hinj a b da db) |].
  split; [exact Hkeya |]. split; [exact Hkeyb |].
  split; [exact Hha |]. split; [exact Hhb |].
  intros Hne. rewrite Hkeya, Hkeyb. unfold Sprintf_s_colon_s. simpl.
  intros [= Heq]. apply Hne. apply append_inj_r in Heq.
  now injection Heq.
Qed.

(** X18. After a batch, inserting any one of its documents alone returns
    the key the batch returned for it, and leaves every document as the
    batch left it. *)
Theorem single_insert_after_a_batch_returns_the_batch_key
    (index : string) (docs : list nat) (w : World) (i doc : nat) :
  Forall (fun doc' => is_Some (heap w !! doc')) docs ->
  docs !! i = Some doc ->
  exists ids err w1 key err' w2,
    InsertManyWithHash index docs w = Returns ((ids, err), w1)
    ∧ ids !! i = Some key
    ∧ InsertWithHash index doc w1 = Returns ((key, err'), w2)
    ∧ heap w2 = heap w1.
Proof.
  intros Hlive Hi.
  destruct (build_commands_spec index docs w [] [] Hlive)
    as (cmds & ids & w1 & Hrun & _ & _ & _ & _ & _ & _ & Hidx).
  simpl in Hrun.
  pose proof (InsertManyWithHash_spec index docs w w1 cmds ids Hrun) as Hmany.
  destruct (Hidx i doc Hi) as (d1 & idv & args & Hd1 & Hid1 & Hkey & _).
  match type of Hmany with _ = Returns (_, ?w0) => set (w1' := w0) in * end.
  assert (heap w1' !! doc = Some d1) as Hd1' by exact Hd1.
  destruct (InsertWithHash_spec index doc w1' d1 Hd1') as (cmd & w2 & Hcmd & _ & Hins).
  pose proof (toHmsetCommand_spec index doc w1' d1 Hd1') as Hspec. simpl in Hspec.
  rewrite Hspec in Hcmd. injection Hcmd as <- <-.
  assert (forall fresh, chosen_identifier d1 fresh = idv) as Hsame.
  { intros fresh. unfold chosen_identifier. now rewrite Hid1. }
  rewrite Hsame in Hins.
  eexists ids, _, w1', _, _, _. split; [exact Hmany |]. split; [exact Hkey |].
  split; [exact Hins |]. cbn [heap]. rewrite Hsame.
  rewrite (insert_id d1 "id" idv Hid1). now apply insert_id.
Qed.

(** ** Keys and the store *)

(** The first loop of a batch reads the documents and the draws only: on
    a world with another store and another log it gives the same commands
    and keys, and the same documents and draws afterwards. *)
Lemma build_commands_frame (index : string) (docs : list nat) :
  forall (w : World) (commands : list Completed) (docIDs : list string)
         (s : Server) (c : list Call),
    Forall (fun doc => is_Some (heap w !! doc)) docs ->
    exists out h n,
      build_commands index docs commands docIDs w
      = Returns (out, mkWorld h n (server w) (calls w))
      ∧ build_commands index docs commands docIDs (mkWorld (heap w) (draws w) s c)
        = Returns (out, mkWorld h n s c).
Proof.
  induction docs as [|doc docs IH]; intros w commands docIDs s c Hlive.
  - exists (commands, docIDs), (heap w), (draws w). split; [now destruct w | done].
  - apply Forall_cons in Hlive as [[d Hd] Hlive].
    pose proof (toHmsetCommand_spec index doc w d Hd) as Hcmd. simpl in Hcmd.
    pose proof (toHmsetCommand_spec index doc (mkWorld (heap w) (draws w) s c) d Hd)
      as Hcmd'. simpl in Hcmd'.
    match type of Hcmd with _ = Returns (_, ?w0) => set (w' := w0) in * end.
    assert (Forall (fun doc0 => is_Some (heap w' !! doc0)) docs) as Hlive'.
    { eapply Forall_impl; [exact Hlive |]. intros l Hl. simpl.
      destruct (decide (l = doc)) as [-> | Hne];
        [rewrite lookup_insert_eq; eauto | now rewrite lookup_insert_ne]. }
    cbn [build_commands].
    rewrite (go_bind_Returns _ _ _ _ _ Hcmd), (go_bind_Returns _ _ _ _ _ Hcmd').
    erewrite !go_bind_Returns by reflexivity.
    exact (IH w' _ _ s c Hlive').
Qed.

(** X19. The keys of a batch, its commands and the identifiers its
    documents receive depend on the documents and on the draws of the
    generator only: against another store, with other replies, the same
    batch returns the same keys and leaves the same documents; only the
    error may differ. *)
Theorem keys_do_not_depend_on_the_store
    (index : string) (docs : list nat) (wa wb : World) :
  heap wa = heap wb -> draws wa = draws wb ->
  Forall (fun doc => is_Some (heap wa !! doc)) docs ->
  exists cmds ids ea wa' eb wb',
    InsertManyWithHash index docs wa = Returns ((ids, ea), wa')
    ∧ InsertManyWithHash index docs wb = Returns ((ids, eb), wb')
    ∧ heap wa' = heap wb'
    ∧ calls wa' = calls wa ++ [CallDoMulti cmds]
    ∧ calls wb' = calls wb ++ [CallDoMulti cmds]
    ∧ ea = errors_Join (Error <$> snd (client_DoMulti (server wa) cmds))
    ∧ eb = errors_Join (Error <$> snd (client_DoMulti (server wb) cmds)).
Proof.
  intros Hheap Hdraws Hlive.
  destruct (build_commands_frame index docs wa [] [] (server wb) (calls wb) Hlive)
    as ([cmds ids] & h & n & Hruna & Hrunb).
  rewrite Hheap, Hdraws in Hrunb.
  assert (mkWorld (heap wb) (draws wb) (server wb) (calls wb) = wb) as Hwb
    by now destruct wb.
  rewrite Hwb in Hrunb.
  pose proof (InsertManyWithHash_spec index docs wa _ cmds ids Hruna) as Hmanya.
  pose proof (InsertManyWithHash_spec index docs wb _ cmds ids Hrunb) as Hmanyb.
  eexists cmds, ids, _, _, _, _. split; [exact Hmanya |]. split; [exact Hmanyb |].
  done.
Qed.

End batch_further.

Section index_further.
Context `{Client} `{Runtime} `{Schemas}.

(** ** Dropping and creating an index *)

(** X20. [DropIndex] sends one command, returns the error of its reply
    and touches no document. Over a store where an index that was dropped is no longer
    found, a successful drop makes [CheckIndexExists] answer false and makes
    [CreateIndexIfNotExists] send the creation again after its probe. *)
Theorem dropped_index_is_created_anew
    (index : string) (deleteDocuments : bool) (schema : IndexSchema) (w : World) :
  index ≠ "" ->
  (forall s,
     Error (snd (client_Do s (FtDropindex_Build index deleteDocuments))) = None ->
     Error (snd (client_Do (fst (client_Do s (FtDropindex_Build index deleteDocuments)))
                   (FtInfo_Build index))) ≠ None) ->
  exists e w1,
    DropIndex index deleteDocuments w = Returns (e, w1)
    ∧ e = Error (snd (client_Do (server w) (FtDropindex_Build index deleteDocuments)))
    ∧ heap w1 = heap w
    ∧ calls w1 = calls w ++ [CallDo (FtDropindex_Build index deleteDocuments)]
    ∧ (e = None ->
       exists w2 e3 w3,
         CheckIndexExists index w1 = Returns (false, w2)
         ∧ CreateIndexIfNotExists index schema w1 = Returns (e3, w3)
         ∧ calls w3 = calls w1 ++ [CallDo (FtInfo_Build index);
                                   CallDo (create_command index schema)]
         ∧ heap w3 = heap w).
Proof.
  intros Hne Hlaw.
  set (drop := FtDropindex_Build index deleteDocuments) in *.
  assert (DropIndex index deleteDocuments w
          = Returns (Error (snd (client_Do (server w) drop)),
                     mkWorld (heap w) (draws w) (fst (client_Do (server w) drop))
                       (calls w ++ [CallDo drop]))) as Hdrop.
  { unfold DropIndex. fold drop. unfold go_bind, Do, go_ret.
    now destruct (client_Do (server w) drop). }
  eexists _, _. split; [exact Hdrop |]. cbn [heap calls server draws].
  do 3 (split; [reflexivity |]).
  intros Hok. specialize (Hlaw (server w) Hok).
  match type of Hdrop with _ = Returns (_, ?w0) => set (w1 := w0) in * end.
  pose proof (CheckIndexExists_spec index w1 Hne) as Hcheck.
  pose proof (CreateIndexIfNotExists_absent index schema w1 Hne Hlaw) as Hcreate.
  cbv zeta in Hcreate.
  rewrite bool_decide_eq_false_2 in Hcheck by exact Hlaw.
  eexists _, _, _. split; [exact Hcheck |]. split; [exact Hcreate |].
  split; reflexivity.
Qed.

End index_further.

(** ** The further properties on the reference instance *)

(** X3 on the document with "keys" and a vector: two fields, four arguments. *)
Lemma upsert_command_has_one_key_and_field_value_pairs_witness :
  heap demo_world !! 2
  = Some {[ "keys" := AString "k1"; "vec" := AFloat32s [0x3F800000%Z] ]}
  ∧ exists cmd w1,
      toHmsetCommand (H := demoClient) (H0 := demoRuntime) "idx" 2 demo_world
      = Returns (cmd, w1)
      ∧ length (Keys cmd) = 1
      ∧ length (Args cmd) = 4.
Proof.
  assert (heap demo_world !! 2
          = Some {[ "keys" := AString "k1"; "vec" := AFloat32s [0x3F800000%Z] ]})
    as Hd by reflexivity.
  split; [exact Hd |].
  destruct (upsert_command_has_one_key_and_field_value_pairs
              (H := demoClient) (H0 := demoRuntime) "idx" 2 demo_world _ Hd)
    as (cmd & w1 & Hcmd & _ & Hkeys & Hargs & _).
  exists cmd, w1. split; [exact Hcmd |]. split; [exact Hkeys |].
  rewrite Hargs. reflexivity.
Defined.

(** X4 on a batch whose second document is a nil map. *)
Lemma insertion_of_a_nil_document_panics_witness :
  Exists (fun doc => heap demo_world !! doc = None) [0; 7]
  ∧ InsertManyWithHash (H := demoClient) (H0 := demoRuntime) "idx" [0; 7] demo_world
    = Panics "assignment to entry in nil map".
Proof.
  assert (Exists (fun doc => heap demo_world !! doc = None) [0; 7]) as Hnil
    by (apply Exists_cons_tl, Exists_cons_hd; reflexivity).
  split; [exact Hnil |].
  destruct (insertion_of_a_nil_document_panics
              (H := demoClient) (H0 := demoRuntime) "idx" demo_world) as [_ Hbatch].
  exact (proj2 (Hbatch [0; 7] Hnil)).
Defined.

(** X5 on the document without "id" and "keys". *)
Lemma InsertWithHash_sends_one_command_and_keeps_the_id_witness :
  heap demo_world !! 0 = Some {[ "title" := AString "a" ]}
  ∧ exists key args err w2,
      InsertWithHash (H := demoClient) (H0 := demoRuntime) "idx" 0 demo_world
      = Returns ((key, err), w2)
      ∧ calls w2 = [CallDo ("HMSET" :: key :: args)]
      ∧ length args = 2
      ∧ heap w2 !! 0
        = Some (<["id" := AString "uuid-1"]> {[ "title" := AString "a" ]}).
Proof.
  assert (heap demo_world !! 0 = Some {[ "title" := AString "a" ]}) as Hd by reflexivity.
  split; [exact Hd |].
  destruct (InsertWithHash_sends_one_command_and_keeps_the_id
              (H := demoClient) (H0 := demoRuntime) "idx" 0 demo_world _ Hd)
    as (key & args & w2 & Hins & Hcalls & _ & Hlen & Hheap & _).
  eexists key, args, _, w2. split; [exact Hins |]. split; [exact Hcalls |].
  split; [exact Hlen | exact Hheap].
Defined.

(** X6 on the same document. *)
Lemma second_insert_returns_the_same_key_witness :
  heap demo_world !! 0 = Some {[ "title" := AString "a" ]}
  ∧ exists key (args1 args2 : list string) e1 w1 e2 w2,
      InsertWithHash (H := demoClient) (H0 := demoRuntime) "idx" 0 demo_world
      = Returns ((key, e1), w1)
      ∧ InsertWithHash (H := demoClient) (H0 := demoRuntime) "idx" 0 w1
        = Returns ((key, e2), w2)
      ∧ length args1 = 2
      ∧ length args2 = length args1 + 2.
Proof.
  assert (heap demo_world !! 0 = Some {[ "title" := AString "a" ]}) as Hd by reflexivity.
  split; [exact Hd |].
  destruct (second_insert_returns_the_same_key
              (H := demoClient) (H0 := demoRuntime) "idx" 0 demo_world _ Hd)
    as (key & args1 & args2 & e1 & w1 & e2 & w2 & Hrun1 & Hrun2 & _ & _ & Hl1 & Hnone & _).
  exists key, args1, args2, e1, w1, e2, w2.
  split; [exact Hrun1 |]. split; [exact Hrun2 |]. split; [exact Hl1 |].
  exact (proj2 (Hnone eq_refl)).
Defined.

(** X7 on a batch that names its first document twice. *)
Lemma batch_gives_one_key_to_a_repeated_document_witness :
  Forall (fun doc => is_Some (heap demo_world !! doc)) [0; 0; 1; 2]
  ∧ exists ids err w' key,
      InsertManyWithHash (H := demoClient) (H0 := demoRuntime) "idx" [0; 0; 1; 2] demo_world
      = Returns ((ids, err), w')
      ∧ ids !! 0 = Some key
      ∧ ids !! 1 = Some key.
Proof.
  assert (Forall (fun doc => is_Some (heap demo_world !! doc)) [0; 0; 1; 2]) as Hlive
    by (repeat constructor; eexists; reflexivity).
  split; [exact Hlive |].
  exact (batch_gives_one_key_to_a_repeated_document
           (H := demoClient) (H0 := demoRuntime) "idx" [0; 0; 1; 2] demo_world 0 1 0
           Hlive eq_refl eq_refl).
Defined.

(** X8 on a batch whose second command the store refuses. *)
Lemma batch_error_lists_failures_without_their_places_witness :
  Forall (fun doc => is_Some (heap demo_world !! doc)) [0; 3]
  ∧ exists cmds ids err w',
      InsertManyWithHash (H := demoClient) (H0 := demoRuntime) "idx" [0; 3] demo_world
      = Returns ((ids, err), w')
      ∧ calls w' = [CallDoMulti cmds].
Proof.
  assert (Forall (fun doc => is_Some (heap demo_world !! doc)) [0; 3]) as Hlive
    by (repeat constructor; eexists; reflexivity).
  split; [exact Hlive |].
  destruct (batch_error_lists_failures_without_their_places
              (H := demoClient) (H0 := demoRuntime) "idx" [0; 3] demo_world Hlive)
    as [(cmds & ids & err & w' & Hrun & Hcalls & _) _].
  exists cmds, ids, err, w'. split; [exact Hrun | exact Hcalls].
Defined.

(** X10 on a row whose distance is out of range: the score is infinite. *)
Lemma score_follows_the_reading_of_distance_witness :
  Doc demo_row_out_of_range !! "distance" = Some "1e999"
  ∧ Doc demo_row_out_of_range !! "score" = None
  ∧ convert_doc (H0 := demoRuntime) [0] demo_row_out_of_range !! "score"
    = Some (AFloat32 0x7F800000%Z).
Proof.
  split; [reflexivity |]. split; [reflexivity |].
  exact (score_follows_the_reading_of_distance (H0 := demoRuntime)
           [0] demo_row_out_of_range "1e999" eq_refl eq_refl).
Defined.

(** X13 on the reference store, where the index is yet to be created. *)
Lemma keys_begin_with_the_prefix_of_the_index_witness :
  Forall (fun doc => is_Some (heap demo_world !! doc)) [0; 1; 2]
  ∧ exists err w1 ids err' w2,
      CreateIndexIfNotExists (H := demoClient) (H1 := demoSchemas) "idx" ["vec"] demo_world
      = Returns (err, w1)
      ∧ InsertManyWithHash (H := demoClient) (H0 := demoRuntime) "idx" [0; 1; 2] w1
        = Returns ((ids, err'), w2)
      ∧ Forall (fun key => String.prefix "idx:" key = true) ids.
Proof.
  assert (Forall (fun doc => is_Some (heap demo_world !! doc)) [0; 1; 2]) as Hlive
    by (repeat constructor; eexists; reflexivity).
  split; [exact Hlive |].
  destruct (keys_begin_with_the_prefix_of_the_index
              (H := demoClient) (H0 := demoRuntime) (H1 := demoSchemas)
              "idx" ["vec"] [0; 1; 2] demo_world
              ltac:(discriminate) ltac:(discriminate) Hlive)
    as (idx & err & w1 & ids & err' & w2 & Hcreate & _ & _ & _ & _ & Hmany & _ & Hkeys).
  exists err, w1, ids, err', w2. split; [exact Hcreate |]. split; [exact Hmany |].
  exact Hkeys.
Defined.

(** X14 on the document with the string "id" 42. *)
Lemma key_of_an_integer_id_is_not_its_decimal_text_witness :
  heap demo_world !! 1 = Some {[ "id" := AString "42"; "title" := AString "b" ]}
  ∧ exists cmd w1,
      toHmsetCommand (H := demoClient) (H0 := demoRuntime) "idx" 1 demo_world
      = Returns (cmd, w1)
      ∧ Keys cmd = ["idx:42"].
Proof.
  assert (heap demo_world !! 1 = Some {[ "id" := AString "42"; "title" := AString "b" ]})
    as Hd by reflexivity.
  split; [exact Hd |].
  destruct (key_of_an_integer_id_is_not_its_decimal_text
              (H := demoClient) (H0 := demoRuntime) "idx" 1 demo_world _ Hd)
    as (cmd & w1 & Hcmd & Hstring & _).
  exists cmd, w1. split; [exact Hcmd |].
  exact (proj1 (Hstring "42" eq_refl)).
Defined.

(** X15 on the spec of the Redis engine. *)
Lemma validated_spec_is_built_by_its_engine_witness :
  ValidateSpec demo_spec_redis = Returns None
  ∧ New demo_spec_redis = Returns "redis".
Proof.
  split; [reflexivity |].
  destruct (validated_spec_is_built_by_its_engine (H := demoEngines) demo_spec_redis eq_refl)
    as [[(_ & _ & Hnew) | (Htype & _)] _]; [rewrite Hnew; reflexivity | discriminate Htype].
Defined.

(** X16 on the spec whose threshold is not a number: it is accepted. *)
Lemma NaN_threshold_is_not_rejected_witness :
  f64_isNaN (Threshold (Common demo_spec_not_a_number)) = true
  ∧ ValidateSpec demo_spec_not_a_number = Returns None.
Proof.
  split; [reflexivity |].
  rewrite (NaN_threshold_is_not_rejected (H := demoEngines) demo_spec_not_a_number eq_refl).
  reflexivity.
Defined.

(** X17 on a batch of the two documents without "id" and "keys". *)
Lemma fresh_identifiers_come_from_distinct_draws_witness :
  Forall (fun doc => is_Some (heap demo_world !! doc)) [0; 3]
  ∧ exists ids err w' (na nb : nat),
      InsertManyWithHash (H := demoClient) (H0 := demoRuntime) "idx" [0; 3] demo_world
      = Returns ((ids, err), w')
      ∧ na ≠ nb
      ∧ ids !! 0 = Some ("idx:uuid-" +:+ pretty na)
      ∧ ids !! 1 = Some ("idx:uuid-" +:+ pretty nb).
Proof.
  assert (Forall (fun doc => is_Some (heap demo_world !! doc)) [0; 3]) as Hlive
    by (repeat constructor; eexists; reflexivity).
  split; [exact Hlive |].
  destruct (fresh_identifiers_come_from_distinct_draws
              (H := demoClient) (H0 := demoRuntime) "idx" [0; 3] demo_world 0 1 0 3
              {[ "title" := AString "a" ]} ∅
              Hlive eq_refl eq_refl ltac:(discriminate)
              eq_refl eq_refl eq_refl eq_refl eq_refl eq_refl)
    as (ids & err & w' & na & nb & Hrun & Hne & Hi & Hj & _).
  exists ids, err, w', na, nb. split; [exact Hrun |]. split; [exact Hne |].
  split; [exact Hi | exact Hj].
Defined.

(** X18 on a batch of three documents and its second one. *)
Lemma single_insert_after_a_batch_returns_the_batch_key_witness :
  Forall (fun doc => is_Some (heap demo_world !! doc)) [0; 1; 2]
  ∧ exists ids err w1 key err' w2,
      InsertManyWithHash (H := demoClient) (H0 := demoRuntime) "idx" [0; 1; 2] demo_world
      = Returns ((ids, err), w1)
      ∧ ids !! 1 = Some key
      ∧ InsertWithHash (H := demoClient) (H0 := demoRuntime) "idx" 1 w1
        = Returns ((key, err'), w2).
Proof.
  assert (Forall (fun doc => is_Some (heap demo_world !! doc)) [0; 1; 2]) as Hlive
    by (repeat constructor; eexists; reflexivity).
  split; [exact Hlive |].
  destruct (single_insert_after_a_batch_returns_the_batch_key
              (H := demoClient) (H0 := demoRuntime) "idx" [0; 1; 2] demo_world 1 1
              Hlive eq_refl)
    as (ids & err & w1 & key & err' & w2 & Hrun & Hkey & Hins & _).
  exists ids, err, w1, key, err', w2. split; [exact Hrun |]. split; [exact Hkey | exact Hins].
Defined.

(** X19 on the reference world and the same world over a store that
    holds an index already. *)
Lemma keys_do_not_depend_on_the_store_witness :
  Forall (fun doc => is_Some (heap demo_world !! doc)) [0; 1; 2]
  ∧ exists ids ea wa' eb wb',
      InsertManyWithHash (H := demoClient) (H0 := demoRuntime) "idx" [0; 1; 2] demo_world
      = Returns ((ids, ea), wa')
      ∧ InsertManyWithHash (H := demoClient) (H0 := demoRuntime) "idx" [0; 1; 2]
          (@mkWorld demoClient demo_heap 0 (mkDemoStore ["idx"] []) [])
        = Returns ((ids, eb), wb')
      ∧ heap wa' = heap wb'.
Proof.
  assert (Forall (fun doc => is_Some (heap demo_world !! doc)) [0; 1; 2]) as Hlive
    by (repeat constructor; eexists; reflexivity).
  split; [exact Hlive |].
  destruct (keys_do_not_depend_on_the_store
              (H := demoClient) (H0 := demoRuntime) "idx" [0; 1; 2] demo_world
              (@mkWorld demoClient demo_heap 0 (mkDemoStore ["idx"] []) [])
              eq_refl eq_refl Hlive)
    as (cmds & ids & ea & wa' & eb & wb' & Hruna & Hrunb & Hheap & _).
  exists ids, ea, wa', eb, wb'. split; [exact Hruna |]. split; [exact Hrunb | exact Hheap].
Defined.

(** The reference store no longer finds an index it dropped. *)
Lemma demo_dropped_index_is_not_found (index : string) (dd : bool) (s : demoStore) :
  Error (snd (demo_Do s (FtDropindex_Build index dd))) = None ->
  Error (snd (demo_Do (fst (demo_Do s (FtDropindex_Build index dd)))
                (FtInfo_Build index))) ≠ None.
Proof.
  unfold FtDropindex_Build, FtInfo_Build.
  destruct dd; simpl; (case_bool_decide as Hin; simpl; [intros _ | discriminate]);
    (rewrite bool_decide_eq_false_2; [discriminate |]);
    rewrite list_elem_of_filter; now intros [Hne _].
Qed.

(** X20 on the reference store holding the index. *)
Lemma dropped_index_is_created_anew_witness :
  exists w1 w2 e3 w3,
    DropIndex (H := demoClient) "idx" true
      (@mkWorld demoClient demo_heap 0 (mkDemoStore ["idx"] []) [])
    = Returns (None, w1)
    ∧ CheckIndexExists (H := demoClient) "idx" w1 = Returns (false, w2)
    ∧ CreateIndexIfNotExists (H := demoClient) (H1 := demoSchemas) "idx" ["vec"] w1
      = Returns (e3, w3)
    ∧ length (calls w3) = 3.
Proof.
  destruct (dropped_index_is_created_anew (H := demoClient) (H1 := demoSchemas)
              "idx" true ["vec"]
              (@mkWorld demoClient demo_heap 0 (mkDemoStore ["idx"] []) [])
              ltac:(discriminate) (demo_dropped_index_is_not_found "idx" true))
    as (e & w1 & Hdrop & He & _ & Hcalls1 & Hafter).
  assert (e = None) as -> by (rewrite He; reflexivity).
  destruct (Hafter eq_refl) as (w2 & e3 & w3 & Hcheck & Hcreate & Hcalls3 & _).
  exists w1, w2, e3, w3. split; [exact Hdrop |]. split; [exact Hcheck |].
  split; [exact Hcreate |]. rewrite Hcalls3, Hcalls1. reflexivity.
Defined.
